(** * passval: a model of the password validator and its properties

    The Go package [passval] scores a password from its entropy, multiplies
    the score down with five pattern penalties, checks the structural rules
    of a [PasswordValidator] and generates random passwords.  This file
    embeds the package function by function and states its properties.

    Conventions of the embedding:
    - a Go [string] is a Rocq [string], one [ascii] per byte; [len] counts
      bytes, [range] and [[]rune(s)] decode UTF-8 the way Go does;
    - Go's [int] and [rune] are [Z];
    - [float64] values that only go through constants, conversion of small
      integers, multiplication, division and comparison are IEEE binary64
      numbers ([PrimFloat]); the entropy curve, which goes through
      [math.Log2] and [math.Exp], is taken over the real numbers;
    - the tables of Go's [unicode] package and the case and space functions
      of [strings] are a parameter ([GoLib]);
    - the order in which [range] walks a Go map is a parameter ([MapOrder]);
    - the bytes read from [crypto/rand] are a parameter ([tape]). *)

From Stdlib Require Import ZArith Lia List Ascii String Bool Permutation.
From Stdlib Require Import Reals Lra Floats Uint63.
From stdpp Require Import base option list gmap strings pretty.

Set Warnings "-inexact-float".
Local Open Scope Z_scope.

(* ===================================================================== *)
(** ** Go strings, bytes and runes                                        *)
(* ===================================================================== *)

Module GoString.

Definition rune := Z.

Definition byte_val (a : ascii) : Z := Z.of_N (N_of_ascii a).
Definition byte_of (b : Z) : ascii := ascii_of_N (Z.to_N b).

(** The bytes of a string, and the string of a byte sequence. *)
Definition bytes (s : string) : list Z := map byte_val (list_ascii_of_string s).
Definition of_bytes (bs : list Z) : string := string_of_list_ascii (map byte_of bs).

(** [len(s)]: the number of bytes. *)
Definition len (s : string) : Z := Z.of_nat (String.length s).

(** A character literal as a rune. *)
Definition ch (a : ascii) : rune := byte_val a.

Definition RuneError : rune := 0xFFFD.
Definition MaxRune : rune := 0x10FFFF.

Definition between (lo hi b : Z) : bool := (lo <=? b) && (b <=? hi).

(** [utf8.DecodeRuneInString] applied along the string, as [for _, r :=
    range s] and [[]rune(s)] do: a byte that does not start a well-formed
    sequence yields [RuneError] and is skipped alone. *)
Fixpoint decode (bs : list Z) : list rune :=
  match bs with
  | [] => []
  | b0 :: t =>
    if b0 <? 0x80 then b0 :: decode t
    else if between 0xC2 0xDF b0 then
      match t with
      | b1 :: t1 =>
        if between 0x80 0xBF b1
        then Z.lor (Z.shiftl (Z.land b0 0x1F) 6) (Z.land b1 0x3F) :: decode t1
        else RuneError :: decode t
      | [] => RuneError :: decode t
      end
    else if between 0xE0 0xEF b0 then
      let lo := if b0 =? 0xE0 then 0xA0 else 0x80 in
      let hi := if b0 =? 0xED then 0x9F else 0xBF in
      match t with
      | b1 :: b2 :: t2 =>
        if between lo hi b1 && between 0x80 0xBF b2
        then Z.lor (Z.lor (Z.shiftl (Z.land b0 0x0F) 12)
                          (Z.shiftl (Z.land b1 0x3F) 6))
                   (Z.land b2 0x3F) :: decode t2
        else RuneError :: decode t
      | _ => RuneError :: decode t
      end
    else if between 0xF0 0xF4 b0 then
      let lo := if b0 =? 0xF0 then 0x90 else 0x80 in
      let hi := if b0 =? 0xF4 then 0x8F else 0xBF in
      match t with
      | b1 :: b2 :: b3 :: t3 =>
        if between lo hi b1 && between 0x80 0xBF b2 && between 0x80 0xBF b3
        then Z.lor (Z.lor (Z.lor (Z.shiftl (Z.land b0 0x07) 18)
                                 (Z.shiftl (Z.land b1 0x3F) 12))
                          (Z.shiftl (Z.land b2 0x3F) 6))
                   (Z.land b3 0x3F) :: decode t3
        else RuneError :: decode t
      | _ => RuneError :: decode t
      end
    else RuneError :: decode t
  end.

(** [utf8.AppendRune]: a rune outside the Unicode range or inside the
    surrogate range is written as [RuneError]. *)
Definition encode_rune (r : rune) : list Z :=
  if between 0 0x7F r then [r]
  else if between 0x80 0x7FF r then
    [Z.lor 0xC0 (Z.shiftr r 6); Z.lor 0x80 (Z.land r 0x3F)]
  else if (r <? 0) || (MaxRune <? r) || between 0xD800 0xDFFF r then
    [0xEF; 0xBF; 0xBD]
  else if r <=? 0xFFFF then
    [Z.lor 0xE0 (Z.shiftr r 12); Z.lor 0x80 (Z.land (Z.shiftr r 6) 0x3F);
     Z.lor 0x80 (Z.land r 0x3F)]
  else
    [Z.lor 0xF0 (Z.shiftr r 18); Z.lor 0x80 (Z.land (Z.shiftr r 12) 0x3F);
     Z.lor 0x80 (Z.land (Z.shiftr r 6) 0x3F); Z.lor 0x80 (Z.land r 0x3F)].

(** [[]rune(s)] and [string(runes)]. *)
Definition runes (s : string) : list rune := decode (bytes s).
Definition of_runes (rs : list rune) : string :=
  of_bytes (concat (map encode_rune rs)).

(** [strings.Contains(s, substr)]: [substr] occurs in [s] as a run of
    bytes. *)
Fixpoint has_prefix (p s : list Z) : bool :=
  match p, s with
  | [], _ => true
  | _ :: _, [] => false
  | x :: p', y :: s' => (x =? y) && has_prefix p' s'
  end.

Fixpoint contains_bytes (s sub : list Z) : bool :=
  has_prefix sub s || match s with [] => false | _ :: s' => contains_bytes s' sub end.

Definition strings_Contains (s substr : string) : bool :=
  contains_bytes (bytes s) (bytes substr).

(** [strings.Split(s, "\n")]: the pieces between line feeds; never empty. *)
Fixpoint split_lines (s : string) : list string :=
  match s with
  | EmptyString => [EmptyString]
  | String c s' =>
    if (byte_val c =? 10) then EmptyString :: split_lines s'
    else match split_lines s' with
         | [] => [String c EmptyString]
         | l :: ls => String c l :: ls
         end
  end.

(** [strings.Join(elems, sep)]. *)
Fixpoint strings_Join (elems : list string) (sep : string) : string :=
  match elems with
  | [] => EmptyString
  | [e] => e
  | e :: es => e +:+ sep +:+ strings_Join es sep
  end.

(** The verb [%d] of [fmt.Sprintf]. *)
Definition fmt_d (n : Z) : string := pretty n.

End GoString.
Export GoString.

(** The part of Go's standard library that the package reads as tables:
    the character classes of [unicode] and the case and space functions of
    [strings] built on them. *)
Class GoLib := {
  unicode_IsLower : rune -> bool;
  unicode_IsUpper : rune -> bool;
  unicode_IsDigit : rune -> bool;
  unicode_IsPunct : rune -> bool;
  unicode_IsSymbol : rune -> bool;
  strings_ToLower : string -> string;
  strings_TrimSpace : string -> string;
}.

(** The order in which [range] walks the keys of a map.  Go leaves it
    unspecified and changes it from one loop to the next, so every loop
    over a map takes its order as an argument: any rearrangement of the
    keys. *)
Record MapOrder := {
  range_keys : list string -> list string;
  range_keys_perm : forall l, Permutation (range_keys l) l;
}.

(* ===================================================================== *)
(** ** Leet-speak normalisation                                           *)
(* ===================================================================== *)

Module Leet.

Arguments ch a%_char.

(** [leetMap]: the letters a leet character may stand for. *)
Definition leetMap : gmap rune (list rune) :=
  list_to_map
    [ (ch "@", [ch "a"]); (ch "4", [ch "a"]); (ch "8", [ch "b"]);
      (ch "(", [ch "c"]); (ch "{", [ch "c"]); (ch "3", [ch "e"]);
      (ch "6", [ch "g"]); (ch "#", [ch "h"]); (ch "!", [ch "i"]);
      (ch "1", [ch "i"; ch "l"]); (ch "|", [ch "i"; ch "l"]);
      (ch "0", [ch "o"]); (ch "9", [ch "g"; ch "q"]); (ch "5", [ch "s"]);
      (ch "$", [ch "s"]); (ch "7", [ch "t"]); (ch "+", [ch "t"]);
      (ch "2", [ch "z"]); (ch "%", [ch "x"]) ].

Global Arguments leetMap : simpl never.

(** The rune [leetNormalize] writes for [r]: [replacements[0]] when [r] is
    a key of [leetMap] (no entry of the map is empty), [r] itself
    otherwise. *)
Definition canonical (r : rune) : rune :=
  match leetMap !! r with
  | Some replacements => default r (head replacements)
  | None => r
  end.

Definition leetNormalize (s : string) : string :=
  of_runes (map canonical (runes s)).

Record ambiguity := { pos : nat; options : list rune }.

(** The loop [for i, r := range runes] that collects the characters with
    more than one mapping, [i] being the index of the next rune. *)
Fixpoint find_ambiguities (i : nat) (rs : list rune) : list ambiguity :=
  match rs with
  | [] => []
  | r :: rs' =>
    match leetMap !! r with
    | Some replacements =>
      if (1 <? length replacements)%nat
      then {| pos := i; options := replacements |} :: find_ambiguities (S i) rs'
      else find_ambiguities (S i) rs'
    | None => find_ambiguities (S i) rs'
    end
  end.

(** One round of the loop over [i < limit]: every combination so far is
    extended by every option of [ambiguities[i]]. *)
Definition extend_combos (combos : list (list rune)) (a : ambiguity)
  : list (list rune) :=
  flat_map (fun combo => map (fun opt => combo ++ [opt]) (options a)) combos.

Definition gen_combos (ambiguities : list ambiguity) (limit : nat)
  : list (list rune) :=
  foldl extend_combos [[]] (take limit ambiguities).

(** [result[ambiguities[i].pos] = combo[i]] for [i < limit]. *)
Definition apply_combo (result : list rune) (ambiguities : list ambiguity)
    (limit : nat) (combo : list rune) : list rune :=
  foldl (fun result ac => <[pos (fst ac) := snd ac]> result) result
        (zip (take limit ambiguities) combo).

(** The map [variants] when the loops are over. *)
Definition variants_map (s : string) : gmap string bool :=
  let primary := leetNormalize s in
  let variants : gmap string bool := {[ primary := true ]} in
  let rs := runes s in
  let ambiguities := find_ambiguities 0 rs in
  let limit := if (2 <? length ambiguities)%nat then 2%nat
               else length ambiguities in
  if (0 <? limit)%nat then
    foldl (fun vs combo =>
             <[ of_runes (apply_combo (map canonical rs) ambiguities limit combo)
                := true ]> vs)
          variants (gen_combos ambiguities limit)
  else variants.

(** [leetVariants]: the keys of [variants], in the order the final
    [range] over the map yields them. *)
Definition leetVariants (order : MapOrder) (s : string) : list string :=
  range_keys order (map fst (map_to_list (variants_map s))).

(** *** The specification's reading of [leetVariants] *)

Definition is_ambiguous (r : rune) : bool :=
  match leetMap !! r with
  | Some replacements => (1 <? length replacements)%nat
  | None => false
  end.

(** The letters [r] may stand for: its mappings, or only itself. *)
Definition alternatives (r : rune) : list rune :=
  default [r] (leetMap !! r).

(** The ambiguous positions of a rune sequence, from left to right. *)
Definition ambiguous_positions (rs : list rune) : list nat :=
  List.filter (fun i => is_ambiguous (nth i rs 0)) (seq 0 (length rs)).

(** [vr] is [rs] with every rune replaced by its canonical letter, except
    at the first two ambiguous positions, which hold any alternative. *)
Definition expands_first_two (rs vr : list rune) : Prop :=
  length vr = length rs /\
  forall i r x, rs !! i = Some r -> vr !! i = Some x ->
    if decide (i ∈ take 2 (ambiguous_positions rs))
    then x ∈ alternatives r
    else x = canonical r.

End Leet.
Export Leet.

(* ===================================================================== *)
(** ** The dictionary of common passwords                                 *)
(* ===================================================================== *)

Module Dictionary.
Section WithLib.
Context `{GoLib}.

(** [set] is the lookup table, [words] the same entries in file order. *)
Record dictionary := { set : gmap string bool; words : list string }.

Definition loadDictionary (data : string) : dictionary :=
  foldl (fun d line =>
           let word := strings_TrimSpace (strings_ToLower line) in
           if String.eqb word EmptyString then d
           else {| set := <[word := true]> (set d);
                   words := words d ++ [word] |})
        {| set := ∅; words := [] |}
        (split_lines data).

(** [d.set[word]]: a missing key reads as [false]. *)
Definition contains (d : dictionary) (word : string) : bool :=
  default false (set d !! word).

End WithLib.
End Dictionary.
Export Dictionary.

(* ===================================================================== *)
(** ** Entropy and the score curve                                        *)
(* ===================================================================== *)

Module Entropy.

(** [math.Log2], [math.Exp] and [math.Round] on [float64], taken over the
    real numbers. *)
Definition math_Log2 (x : R) : R := (ln x / ln 2)%R.
Definition math_Exp (x : R) : R := exp x.

(** Nearest integer, halves away from zero. *)
Definition math_Round (x : R) : R :=
  if Rle_dec 0 x then IZR (Int_part (x + / 2))
  else IZR (- Int_part (- x + / 2)).

(** The conversion [int(x)]: the fraction is dropped. *)
Definition int_of_real (x : R) : Z :=
  if Rle_dec 0 x then Int_part x else - Int_part (- x).

Section WithLib.
Context `{GoLib}.

(** The four flags of [effectivePoolSize] after one more rune: the first
    case of the [switch] that holds sets its flag. *)
Definition pool_step (flags : bool * bool * bool * bool) (r : rune)
  : bool * bool * bool * bool :=
  let '(hasLower, hasUpper, hasDigit, hasSymbol) := flags in
  if unicode_IsLower r then (true, hasUpper, hasDigit, hasSymbol)
  else if unicode_IsUpper r then (hasLower, true, hasDigit, hasSymbol)
  else if unicode_IsDigit r then (hasLower, hasUpper, true, hasSymbol)
  else (hasLower, hasUpper, hasDigit, true).

Definition pool_of_flags (flags : bool * bool * bool * bool) : Z :=
  let '(hasLower, hasUpper, hasDigit, hasSymbol) := flags in
  let pool := 0 in
  let pool := if hasLower then pool + 26 else pool in
  let pool := if hasUpper then pool + 26 else pool in
  let pool := if hasDigit then pool + 10 else pool in
  let pool := if hasSymbol then pool + 33 else pool in
  pool.

Definition effectivePoolSize (password : string) : Z :=
  pool_of_flags (foldl pool_step (false, false, false, false) (runes password)).

Definition calculateEntropy (password : string) : R :=
  if len password =? 0 then 0%R
  else
    let poolSize := effectivePoolSize password in
    if poolSize <=? 1 then 0%R
    else (IZR (len password) * math_Log2 (IZR poolSize))%R.

End WithLib.

Definition entropyToScore (entropy : R) : Z :=
  if Rle_dec entropy 0 then 0
  else
    let k := 40%R in
    let score := (100 * (1 - math_Exp (- entropy / k)))%R in
    let s := int_of_real (math_Round score) in
    let s := if 100 <? s then 100 else s in
    let s := if s <? 0 then 0 else s in
    s.

End Entropy.
Export Entropy.

(* ===================================================================== *)
(** ** The five pattern penalties                                         *)
(* ===================================================================== *)

Module Penalties.

(** *** [float64] as used by the penalties *)

(** [float64(n)] for an [int] below [2^63] in absolute value. *)
Definition float64_of_int (z : Z) : float :=
  if z <? 0 then PrimFloat.opp (PrimFloat.of_uint63 (Uint63.of_Z (- z)))
  else PrimFloat.of_uint63 (Uint63.of_Z z).

Definition minInt64 : Z := - 2 ^ 63.

(** [int(f)]: the fraction is dropped.  Go leaves the result open when the
    value does not fit; the model returns what amd64 returns. *)
Definition int_of_float (f : float) : Z :=
  match Prim2SF f with
  | S754_zero _ => 0
  | S754_finite s m e =>
    let mag := if 0 <=? e then Z.pos m * 2 ^ e else Z.pos m / 2 ^ (- e) in
    let v := if s then - mag else mag in
    if (minInt64 <=? v) && (v <? 2 ^ 63) then v else minInt64
  | _ => minInt64
  end.

(** The verb [%.0f]: the nearest integer of the exact value, a half going
    to the even neighbour. *)
Definition fmt_f0 (f : float) : string :=
  match Prim2SF f with
  | S754_zero s => if s then "-0" else "0"
  | S754_infinity s => if s then "-Inf" else "+Inf"
  | S754_nan => "NaN"
  | S754_finite s m e =>
    let n :=
      if 0 <=? e then Z.pos m * 2 ^ e
      else
        let d := 2 ^ (- e) in
        let q := Z.pos m / d in
        let r := Z.pos m mod d in
        if (d <? 2 * r) || ((d =? 2 * r) && Z.odd q) then q + 1 else q in
    (if s then "-" else EmptyString) +:+ fmt_d n
  end.

Record PenaltyDetail := { Rule : string; Factor : float; Desc : string }.

(** *** 1. Common password *)

Definition penaltyCommonPassword (order : MapOrder) (lower : string)
    (dict : option dictionary) : option PenaltyDetail :=
  match dict with
  | None => None
  | Some dict =>
    if contains dict lower then
      Some {| Rule := "common_password";
              Factor := 0.1;
              Desc := "password is in the common passwords list" |}
    else
      let variants := leetVariants order lower in
      match List.find (contains dict) variants with
      | Some v =>
        Some {| Rule := "common_password_leet";
                Factor := 0.15;
                Desc := "password matches common password via leet-speak ("
                        +:+ v +:+ ")" |}
      | None => None
      end
  end.

(** *** 2. Repeated characters *)

(** The loop [for i := 1; i < len(lower); i++] of [penaltyRepeatedChars]:
    [prev] is [lower[i-1]], [rest] starts at [lower[i]]. *)
Fixpoint repeat_loop (prev : Z) (rest : list Z) (current maxRepeat : Z) : Z :=
  match rest with
  | [] => maxRepeat
  | b :: rest' =>
    if b =? prev then
      let current := current + 1 in
      repeat_loop b rest' current
                  (if maxRepeat <? current then current else maxRepeat)
    else repeat_loop b rest' 1 maxRepeat
  end.

Definition maxRepeat_of (lower : list Z) : Z :=
  match lower with
  | [] => 1
  | b0 :: rest => repeat_loop b0 rest 1 1
  end.

Definition penaltyRepeatedChars (lower : string) : option PenaltyDetail :=
  if len lower <? 3 then None
  else
    let maxRepeat := maxRepeat_of (bytes lower) in
    let unique : gset rune := list_to_set (runes lower) in
    let uniqueRatio :=
      (float64_of_int (Z.of_nat (size unique)) / float64_of_int (len lower))%float in
    let factor := 1.0%float in
    let reasons : list string := [] in
    let '(factor, reasons) :=
      if 4 <=? maxRepeat then
        ((factor * 0.4)%float,
         reasons ++ [fmt_d maxRepeat +:+ " consecutive repeated characters"])
      else if 3 <=? maxRepeat then
        ((factor * 0.6)%float,
         reasons ++ [fmt_d maxRepeat +:+ " consecutive repeated characters"])
      else (factor, reasons) in
    let '(factor, reasons) :=
      if (uniqueRatio <? 0.4)%float then
        ((factor * 0.5)%float,
         reasons ++ ["low character diversity ("
                     +:+ fmt_f0 (uniqueRatio * 100)%float +:+ "% unique)"])
      else if (uniqueRatio <? 0.6)%float then
        ((factor * 0.7)%float,
         reasons ++ ["moderate character diversity ("
                     +:+ fmt_f0 (uniqueRatio * 100)%float +:+ "% unique)"])
      else (factor, reasons) in
    if (factor <? 1.0)%float then
      Some {| Rule := "repeated_chars";
              Factor := factor;
              Desc := strings_Join reasons "; " |}
    else None.

(** *** 3. Sequential characters *)

Fixpoint sequence_loop (prev : Z) (rest : list Z) (current maxSeq : Z) : Z :=
  match rest with
  | [] => maxSeq
  | b :: rest' =>
    let diff := b - prev in
    if (diff =? 1) || (diff =? -1) then
      let current := current + 1 in
      sequence_loop b rest' current
                    (if maxSeq <? current then current else maxSeq)
    else sequence_loop b rest' 1 maxSeq
  end.

Definition maxSeq_of (lower : list Z) : Z :=
  match lower with
  | [] => 1
  | b0 :: rest => sequence_loop b0 rest 1 1
  end.

Definition penaltySequentialChars (lower : string) : option PenaltyDetail :=
  if len lower <? 3 then None
  else
    let maxSeq := maxSeq_of (bytes lower) in
    if 5 <=? maxSeq then
      Some {| Rule := "sequential_chars"; Factor := 0.3;
              Desc := "long sequential pattern detected ("
                      +:+ fmt_d maxSeq +:+ " chars)" |}
    else if 4 <=? maxSeq then
      Some {| Rule := "sequential_chars"; Factor := 0.5;
              Desc := "sequential pattern detected ("
                      +:+ fmt_d maxSeq +:+ " chars)" |}
    else if 3 <=? maxSeq then
      Some {| Rule := "sequential_chars"; Factor := 0.7;
              Desc := "short sequential pattern detected ("
                      +:+ fmt_d maxSeq +:+ " chars)" |}
    else None.

(** *** 4. Keyboard patterns *)

Definition keyboardRows : list string :=
  [ "qwertyuiop"; "asdfghjkl"; "zxcvbnm"; "1234567890";
    "qazwsx"; "edcrfv"; "tgbyhn"; "yujm" ].

(** The innermost loop of [longestCommonSubstringLen]: how far [a[i:]]
    and [b[j:]] agree. *)
Fixpoint common_prefix_len (a b : list Z) : Z :=
  match a, b with
  | x :: a', y :: b' => if x =? y then 1 + common_prefix_len a' b' else 0
  | _, _ => 0
  end.

(** [l[i:]] for every index [i] of [l], in order. *)
Fixpoint suffixes (l : list Z) : list (list Z) :=
  match l with
  | [] => []
  | _ :: t => l :: suffixes t
  end.

Definition longestCommonSubstringLen (a b : string) : Z :=
  if (len a =? 0) || (len b =? 0) then 0
  else
    foldl (fun maxLen ai =>
             foldl (fun maxLen bj =>
                      let k := common_prefix_len ai bj in
                      if maxLen <? k then k else maxLen)
                   maxLen (suffixes (bytes b)))
          0 (suffixes (bytes a)).

Definition reverseString (s : string) : string := of_runes (rev (runes s)).

Definition penaltyKeyboardPatterns (lower : string) : option PenaltyDetail :=
  let bestMatch :=
    foldl (fun bestMatch row =>
             let match_ := longestCommonSubstringLen lower row in
             let bestMatch := if bestMatch <? match_ then match_ else bestMatch in
             let rev := reverseString row in
             let match_ := longestCommonSubstringLen lower rev in
             if bestMatch <? match_ then match_ else bestMatch)
          0 keyboardRows in
  if 6 <=? bestMatch then
    Some {| Rule := "keyboard_pattern"; Factor := 0.2;
            Desc := "long keyboard pattern detected ("
                    +:+ fmt_d bestMatch +:+ " chars)" |}
  else if 5 <=? bestMatch then
    Some {| Rule := "keyboard_pattern"; Factor := 0.4;
            Desc := "keyboard pattern detected ("
                    +:+ fmt_d bestMatch +:+ " chars)" |}
  else if 4 <=? bestMatch then
    Some {| Rule := "keyboard_pattern"; Factor := 0.6;
            Desc := "short keyboard pattern detected ("
                    +:+ fmt_d bestMatch +:+ " chars)" |}
  else None.

(** *** 5. Dictionary substring *)

Definition penaltyDictionarySubstring (lower : string)
    (dict : option dictionary) : option PenaltyDetail :=
  match dict with
  | None => None
  | Some dict =>
    let normalized := leetNormalize lower in
    let longestMatch :=
      foldl (fun longestMatch word =>
               if len word <? 4 then longestMatch
               else if strings_Contains lower word
                       || strings_Contains normalized word then
                 if len longestMatch <? len word then word else longestMatch
               else longestMatch)
            EmptyString (words dict) in
    if String.eqb longestMatch EmptyString then None
    else
      let ratio :=
        (float64_of_int (len longestMatch) / float64_of_int (len lower))%float in
      if (0.8 <=? ratio)%float then
        Some {| Rule := "dictionary_substring"; Factor := 0.2;
                Desc := "password is mostly the dictionary word '"
                        +:+ longestMatch +:+ "'" |}
      else if (0.5 <=? ratio)%float then
        Some {| Rule := "dictionary_substring"; Factor := 0.5;
                Desc := "password contains dictionary word '"
                        +:+ longestMatch +:+ "'" |}
      else if (0.3 <=? ratio)%float then
        Some {| Rule := "dictionary_substring"; Factor := 0.7;
                Desc := "password contains dictionary word '"
                        +:+ longestMatch +:+ "'" |}
      else None
  end.

(** *** All five, in order *)

(** [if p := detector(...); p != nil { penalties = append(penalties, *p) }] *)
Definition add_penalty (penalties : list PenaltyDetail)
    (p : option PenaltyDetail) : list PenaltyDetail :=
  match p with
  | Some p => penalties ++ [p]
  | None => penalties
  end.

Section WithLib.
Context `{GoLib}.

Definition detectPenalties (order : MapOrder) (password : string)
    (dict : option dictionary) : list PenaltyDetail :=
  let penalties : list PenaltyDetail := [] in
  let lower := strings_ToLower password in
  let penalties := add_penalty penalties (penaltyCommonPassword order lower dict) in
  let penalties := add_penalty penalties (penaltyRepeatedChars lower) in
  let penalties := add_penalty penalties (penaltySequentialChars lower) in
  let penalties := add_penalty penalties (penaltyKeyboardPatterns lower) in
  let penalties := add_penalty penalties (penaltyDictionarySubstring lower dict) in
  penalties.

End WithLib.

End Penalties.
Export Penalties.

(* ===================================================================== *)
(** ** The policy validator                                               *)
(* ===================================================================== *)

Module Validator.

Record ValidationError := {
  Penalties : list PenaltyDetail;
  RuleFails : list string;
}.

Record PasswordValidator := {
  MinLength : Z;
  MaxLength : Z;
  RequireLower : bool;
  RequireUpper : bool;
  RequireNumbers : bool;
  RequireSymbols : bool;
  Complexity : Z;
  dict : option dictionary;
}.

(** The file [data/common_passwords.txt] that the package embeds; it is
    not among the sources, so its text is a parameter. *)
Class Embedded := { commonPasswordsData : string }.

Section WithLib.
Context `{GoLib} `{Embedded}.

Definition globalDict : dictionary := loadDictionary commonPasswordsData.

Definition NewPasswordValidatorWithDict (min max : Z)
    (lower upper numbers symbols : bool) (complexity : Z)
    (customDict : string) : PasswordValidator :=
  let complexity := if complexity <? 0 then 0 else complexity in
  let complexity := if 100 <? complexity then 100 else complexity in
  let min := if min <? 1 then 1 else min in
  let max := if max <? min then min else max in
  let dict := if negb (String.eqb customDict EmptyString)
              then loadDictionary customDict else globalDict in
  {| MinLength := min;
     MaxLength := max;
     RequireLower := lower;
     RequireUpper := upper;
     RequireNumbers := numbers;
     RequireSymbols := symbols;
     Complexity := complexity;
     dict := Some dict |}.

Definition NewPasswordValidator (min max : Z)
    (lower upper numbers symbols : bool) (complexity : Z) : PasswordValidator :=
  NewPasswordValidatorWithDict min max lower upper numbers symbols complexity EmptyString.

(** One rune of the loop of [charClasses]. *)
Definition class_step (flags : bool * bool * bool * bool) (r : rune)
  : bool * bool * bool * bool :=
  let '(lower, upper, number, symbol) := flags in
  if unicode_IsLower r then (true, upper, number, symbol)
  else if unicode_IsUpper r then (lower, true, number, symbol)
  else if unicode_IsDigit r then (lower, upper, true, symbol)
  else if unicode_IsPunct r || unicode_IsSymbol r then (lower, upper, number, true)
  else (lower, upper, number, symbol).

Definition charClasses (password : string) : bool * bool * bool * bool :=
  foldl class_step (false, false, false, false) (runes password).

(** The rule checks of [validate], in order. *)
Definition rule_checks (v : PasswordValidator) (password : string) : list string :=
  let ruleFails : list string := [] in
  let ruleFails :=
    if len password <? MinLength v
    then ruleFails ++ ["too short: minimum " +:+ fmt_d (MinLength v) +:+ " characters"]
    else ruleFails in
  let ruleFails :=
    if MaxLength v <? len password
    then ruleFails ++ ["too long: maximum " +:+ fmt_d (MaxLength v) +:+ " characters"]
    else ruleFails in
  let '(hasLower, hasUpper, hasNumber, hasSymbol) := charClasses password in
  let ruleFails := if RequireLower v && negb hasLower
                   then ruleFails ++ ["missing lowercase letter"] else ruleFails in
  let ruleFails := if RequireUpper v && negb hasUpper
                   then ruleFails ++ ["missing uppercase letter"] else ruleFails in
  let ruleFails := if RequireNumbers v && negb hasNumber
                   then ruleFails ++ ["missing number"] else ruleFails in
  let ruleFails := if RequireSymbols v && negb hasSymbol
                   then ruleFails ++ ["missing symbol"] else ruleFails in
  ruleFails.

(** The loop over the penalties: each multiplies the score down and is
    recorded. *)
Definition apply_penalty (acc : Z * list PenaltyDetail) (p : PenaltyDetail)
  : Z * list PenaltyDetail :=
  (int_of_float (float64_of_int (fst acc) * Factor p)%float, snd acc ++ [p]).

Definition validate (order : MapOrder) (v : PasswordValidator)
    (password : string) : bool * Z * ValidationError :=
  let ruleFails := rule_checks v password in
  let entropy := calculateEntropy password in
  let score := entropyToScore entropy in
  let penalties := detectPenalties order password (dict v) in
  let '(score, applied) := foldl apply_penalty (score, []) penalties in
  let score := if score <? 0 then 0 else score in
  let score := if 100 <? score then 100 else score in
  let rulesPass := (length ruleFails =? 0)%nat in
  let complexityPass := Complexity v <=? score in
  let pass := rulesPass && complexityPass in
  let ruleFails :=
    if negb complexityPass
    then ruleFails ++ ["complexity " +:+ fmt_d score +:+ " below threshold "
                       +:+ fmt_d (Complexity v)]
    else ruleFails in
  (pass, score, {| Penalties := applied; RuleFails := ruleFails |}).

Definition Validate (order : MapOrder) (v : PasswordValidator)
    (password : string) : bool * Z :=
  let '(pass, score, _) := validate order v password in
  (pass, score).

(** The [error] result is [None] for [nil]. *)
Definition ValidateVerbose (order : MapOrder) (v : PasswordValidator)
    (password : string) : bool * Z * option ValidationError :=
  let '(pass, score, vErr) := validate order v password in
  if pass then (true, score, None) else (false, score, Some vErr).

End WithLib.
End Validator.
Export Validator.

(* ===================================================================== *)
(** ** The candidate generator                                            *)
(* ===================================================================== *)

Module Generator.

(** A run either returns or panics. *)
Inductive outcome (A : Type) : Type :=
| Done (a : A)
| Panic (msg : string).
Arguments Done {A} a.
Arguments Panic {A} msg.

(** What [crypto/rand] delivers: the [k]-th call of [rand.Int] reads the
    [k]-th entry.  Reading is taken never to fail. *)
Definition tape := nat -> Z.

(** A computation reads the tape from a position on and returns the next
    position with its result. *)
Definition gen (A : Type) : Type := tape -> nat -> outcome (A * nat).

Definition ret {A} (a : A) : gen A := fun _ k => Done (a, k).

Definition bind {A B} (m : gen A) (f : A -> gen B) : gen B :=
  fun tp k =>
    match m tp k with
    | Done (a, k') => f a tp k'
    | Panic msg => Panic msg
    end.

Definition panic {A} (msg : string) : gen A := fun _ _ => Panic msg.

Notation "x <- m ;; f" := (bind m (fun x => f))
  (at level 100, m at next level, right associativity).

(** [rand.Int(rand.Reader, big.NewInt(max))]: uniform in [[0, max)];
    panics when [max <= 0]. *)
Definition rand_Int (max : Z) : gen Z :=
  fun tp k =>
    if max <=? 0 then Panic "crypto/rand: argument to Int is <= 0"
    else Done (tp k mod max, S k).

(** Arithmetic on [int] wraps around at 64 bits. *)
Definition wrap64 (z : Z) : Z := (z + 2 ^ 63) mod 2 ^ 64 - 2 ^ 63.

(** [l[i]] and [l[i] = x] with Go's bounds check. *)
Definition index {A} (l : list A) (i : Z) : gen A :=
  if i <? 0 then panic "index out of range"
  else match l !! Z.to_nat i with
       | Some x => ret x
       | None => panic "index out of range"
       end.

Definition store {A} (l : list A) (i : Z) (x : A) : gen (list A) :=
  if (0 <=? i) && (i <? Z.of_nat (length l))
  then ret (<[Z.to_nat i := x]> l)
  else panic "index out of range".

(** [make([]T, n)] with zero value [z]. *)
Definition make {A} (z : A) (n : Z) : gen (list A) :=
  if n <? 0 then panic "makeslice: len out of range"
  else ret (replicate (Z.to_nat n) z).

Definition lowerChars : string := "abcdefghijklmnopqrstuvwxyz".
Definition upperChars : string := "ABCDEFGHIJKLMNOPQRSTUVWXYZ".
Definition numberChars : string := "0123456789".
Definition symbolChars : string := "!@#$%^&*()-_=+[]{}|;:',.<>?/`~".

(** [for i := len(positions) - 1; i > 0; i--]: one swap per round. *)
Fixpoint shuffle (i : nat) (positions : list Z) : gen (list Z) :=
  match i with
  | O => ret positions
  | S i' =>
    n <- rand_Int (Z.of_nat i + 1) ;;
    let j := n in
    pj <- index positions j ;;
    pi <- index positions (Z.of_nat i) ;;
    positions <- store positions (Z.of_nat i) pj ;;
    positions <- store positions j pi ;;
    shuffle i' positions
  end.

(** [for _, req := range required]: one character of each required class
    at [positions[pos]]. *)
Fixpoint fill_required (required : list string) (positions : list Z)
    (pwd : list Z) (pos : Z) : gen (list Z * Z) :=
  match required with
  | [] => ret (pwd, pos)
  | req :: required' =>
    n <- rand_Int (len req) ;;
    p <- index positions pos ;;
    c <- index (bytes req) n ;;
    pwd <- store pwd p c ;;
    fill_required required' positions pwd (pos + 1)
  end.

(** [for ; pos < length; pos++]: [rounds] is the number of rounds left. *)
Fixpoint fill_rest (rounds : nat) (charset : string) (positions : list Z)
    (pwd : list Z) (pos : Z) : gen (list Z) :=
  match rounds with
  | O => ret pwd
  | S rounds' =>
    n <- rand_Int (len charset) ;;
    p <- index positions pos ;;
    c <- index (bytes charset) n ;;
    pwd <- store pwd p c ;;
    fill_rest rounds' charset positions pwd (pos + 1)
  end.

Definition generateCandidate (v : PasswordValidator) : gen string :=
  length <-
    (if MinLength v <? MaxLength v then
       let diff := wrap64 (MaxLength v - MinLength v) in
       n <- rand_Int (wrap64 (diff + 1)) ;;
       ret (wrap64 (MinLength v + n))
     else ret (MinLength v)) ;;
  let charset := EmptyString in
  let required : list string := [] in
  let '(charset, required) :=
    if RequireLower v then (charset +:+ lowerChars, required ++ [lowerChars])
    else (charset, required) in
  let '(charset, required) :=
    if RequireUpper v then (charset +:+ upperChars, required ++ [upperChars])
    else (charset, required) in
  let '(charset, required) :=
    if RequireNumbers v then (charset +:+ numberChars, required ++ [numberChars])
    else (charset, required) in
  let '(charset, required) :=
    if RequireSymbols v then (charset +:+ symbolChars, required ++ [symbolChars])
    else (charset, required) in
  let charset :=
    if String.eqb charset EmptyString
    then lowerChars +:+ upperChars +:+ numberChars +:+ symbolChars
    else charset in
  pwd <- make 0 length ;;
  positions <- make 0 length ;;
  let positions := imap (fun i _ => Z.of_nat i) positions in
  positions <- shuffle (Nat.pred (List.length positions)) positions ;;
  filled <- fill_required required positions pwd 0 ;;
  let '(pwd, pos) := filled in
  pwd <- fill_rest (Z.to_nat (length - pos)) charset positions pwd pos ;;
  ret (of_bytes pwd).

Section WithLib.
Context `{GoLib}.

Definition exhausted : string :=
  "failed to generate a valid password after 1000 attempts".

(** The loop of [Generate]: [attempts] candidates are still to be tried.
    The result is the password and the error, [None] for [nil]. *)
Fixpoint generate_loop (order : MapOrder) (v : PasswordValidator)
    (attempts : nat) : gen (string * option string) :=
  match attempts with
  | O => ret (EmptyString, Some exhausted)
  | S attempts' =>
    pwd <- generateCandidate v ;;
    if fst (Validate order v pwd) then ret (pwd, None)
    else generate_loop order v attempts'
  end.

Definition maxAttempts : nat := 1000.

Definition Generate (order : MapOrder) (v : PasswordValidator)
  : gen (string * option string) :=
  generate_loop order v maxAttempts.

End WithLib.
End Generator.
Export Generator.

(* ===================================================================== *)
(** ** Concrete parameters for running the model                          *)
(* ===================================================================== *)

Module Concrete.

(** The ASCII rows of the [unicode] tables; the remaining rows are left
    out, so that the instance agrees with Go on ASCII text. *)
Definition ascii_IsLower (r : rune) : bool := between (ch "a") (ch "z") r.
Definition ascii_IsUpper (r : rune) : bool := between (ch "A") (ch "Z") r.
Definition ascii_IsDigit (r : rune) : bool := between (ch "0") (ch "9") r.
Definition ascii_IsPunct (r : rune) : bool :=
  existsb (Z.eqb r) (34 :: bytes "!#%&'()*,-./:;?@[\]_{}").
Definition ascii_IsSymbol (r : rune) : bool :=
  existsb (Z.eqb r) (bytes "$+<=>^`|~").

(** [strings.ToLower] on ASCII text: the letters [A-Z] are shifted. *)
Definition ascii_ToLower (s : string) : string :=
  of_bytes (map (fun b => if between (ch "A") (ch "Z") b then b + 32 else b)
                (bytes s)).

Definition ascii_space (b : Z) : bool := between 9 13 b || (b =? 32).

Fixpoint drop_while (f : Z -> bool) (l : list Z) : list Z :=
  match l with
  | [] => []
  | x :: l' => if f x then drop_while f l' else l
  end.

(** [strings.TrimSpace] on ASCII text. *)
Definition ascii_TrimSpace (s : string) : string :=
  of_bytes (rev (drop_while ascii_space (rev (drop_while ascii_space (bytes s))))).

Definition ascii_lib : GoLib := {|
  unicode_IsLower := ascii_IsLower;
  unicode_IsUpper := ascii_IsUpper;
  unicode_IsDigit := ascii_IsDigit;
  unicode_IsPunct := ascii_IsPunct;
  unicode_IsSymbol := ascii_IsSymbol;
  strings_ToLower := ascii_ToLower;
  strings_TrimSpace := ascii_TrimSpace;
|}.

(** A line feed, and a text of several lines. *)
Definition LF : string := String "010" EmptyString.
Definition lines (ls : list string) : string := strings_Join ls LF.

(** A stand-in for the embedded list: the two entries the tests of the
    package look up. *)
Definition sample_embedded : Embedded :=
  {| commonPasswordsData := lines ["password"; "123456"] |}.

(** Two map orders: the keys as stored, and reversed. *)
Definition order_stored : MapOrder :=
  {| range_keys := fun l => l; range_keys_perm := fun l => Permutation_refl l |}.


(** A tape of zeros. *)
Definition zero_tape : tape := fun _ => 0.

(** The letter e with an acute accent, U+00E9: one code point, the two
    bytes C3 A9. *)
Definition e_acute : string := String "195" (String "169" EmptyString).

(** Length exactly one byte, nothing else required. *)
Definition one_byte_validator : PasswordValidator :=
  @NewPasswordValidator ascii_lib sample_embedded 1 1 false false false false 0.

(** Length exactly one, a lower-case and an upper-case letter required. *)
Definition one_char_two_classes : PasswordValidator :=
  @NewPasswordValidator ascii_lib sample_embedded 1 1 true true false false 0.



End Concrete.
Export Concrete.

(* ===================================================================== *)
(** ** Vocabulary of the properties                                       *)
(* ===================================================================== *)

Module Vocabulary.

(** Two penalties agree on what enters the verdict: the rule tag and the
    factor, and the description too unless the rule is the leet match. *)
Definition same_verdict (p q : PenaltyDetail) : Prop :=
  Rule p = Rule q /\ Factor p = Factor q /\
  (Rule p <> "common_password_leet"%string -> Desc p = Desc q).

(** The score [validate] returns: the raw score of the entropy curve,
    multiplied down by the penalties in order and clamped. *)
Definition final_score `{GoLib} (order : MapOrder) (v : PasswordValidator)
    (password : string) : Z :=
  let raw := entropyToScore (calculateEntropy password) in
  let score := fst (foldl apply_penalty (raw, [])
                          (detectPenalties order password (dict v))) in
  let score := if score <? 0 then 0 else score in
  if 100 <? score then 100 else score.

(** The entry [find_ambiguities] records for an ambiguous position [j]. *)
Definition ambiguity_at (rs : list rune) (j : nat) : ambiguity :=
  {| pos := j; options := alternatives (nth j rs 0) |}.

(** [vr] is [rs] made canonical except at the positions [P], which hold
    any alternative. *)
Definition expands_at (P : list nat) (rs vr : list rune) : Prop :=
  length vr = length rs /\
  forall i r x, rs !! i = Some r -> vr !! i = Some x ->
    if decide (i ∈ P) then x ∈ alternatives r else x = canonical r.






(** Some character class has been seen. *)
Definition some_flag (flags : bool * bool * bool * bool) : bool :=
  let '(l, u, d, s) := flags in l || u || d || s.

(** The curve of [entropyToScore] before rounding. *)
Definition curve (e : R) : R := (100 * (1 - math_Exp (- e / 40)))%R.

(** The factors a detector can emit. *)
Definition emitted_factors : list float :=
  [ 0.1; 0.15;
    1.0 * 0.4; 1.0 * 0.6; 1.0 * 0.5; 1.0 * 0.7;
    1.0 * 0.4 * 0.5; 1.0 * 0.4 * 0.7; 1.0 * 0.6 * 0.5; 1.0 * 0.6 * 0.7;
    0.3; 0.5; 0.7; 0.2; 0.4; 0.6 ]%float.

(** One penalty cannot raise a score between 0 and 100. *)
Definition lowers_score (f : float) (s : Z) : bool :=
  let s' := int_of_float (float64_of_int s * f)%float in
  (0 <=? s') && (s' <=? s).

(** The number of character classes a validator requires. *)
Definition required_count (v : PasswordValidator) : Z :=
  (if RequireLower v then 1 else 0) + (if RequireUpper v then 1 else 0)
  + (if RequireNumbers v then 1 else 0) + (if RequireSymbols v then 1 else 0).

(** [positions] holds [L] indices below [L]. *)
Definition positions_ok (L : nat) (positions : list Z) : Prop :=
  length positions = L /\ Forall (fun p => 0 <= p < Z.of_nat L) positions.

End Vocabulary.
Export Vocabulary.

(* ===================================================================== *)
(** ** Vocabulary of the further properties                               *)
(* ===================================================================== *)

Module MoreVocabulary.

(** What [loadDictionary] keeps of a line: lower case, trimmed. *)
Definition normalized_line `{GoLib} (line : string) : string :=
  strings_TrimSpace (strings_ToLower line).

(** Every byte of the string is below 128. *)
Definition is_ascii (s : string) : Prop := Forall (fun b => b < 0x80) (bytes s).

(** Two neighbouring bytes of a sequence: the second is the first plus or
    minus one. *)
Definition adjacent (a b : Z) : Prop := b - a = 1 \/ b - a = -1.

(** [k] consecutive bytes of [bs], from index [i] on, each adjacent to the
    one before it; the direction may change along the way. *)
Definition chain_at (bs : list Z) (i k : nat) : Prop :=
  (i + k <= length bs)%nat /\
  forall j, (S j < k)%nat ->
    exists a b, bs !! (i + j)%nat = Some a /\ bs !! (i + S j)%nat = Some b /\
                adjacent a b.

Definition has_chain (bs : list Z) (k : nat) : Prop := exists i, chain_at bs i k.

Definition longest_chain (bs : list Z) (k : nat) : Prop :=
  has_chain bs k /\ forall k', has_chain bs k' -> (k' <= k)%nat.

(** The state of the loop of [penaltySequentialChars] after the bytes
    [l]: [prev] is the last byte, the last [cur] bytes form a chain and no
    more do, [mx] is the longest chain. *)
Definition chain_invariant (l : list Z) (prev : Z) (cur mx : nat) : Prop :=
  (1 <= cur <= mx)%nat /\ (cur <= length l)%nat /\
  l !! (length l - 1)%nat = Some prev /\
  longest_chain l mx /\
  chain_at l (length l - cur) cur /\
  ~ chain_at l (length l - S cur) (S cur).

(** [a] and [b] agree on [k] bytes from the indices [i] and [j] on. *)
Definition common_at (a b : list Z) (i j k : nat) : Prop :=
  forall t, (t < k)%nat -> exists c, a !! (i + t)%nat = Some c /\ b !! (j + t)%nat = Some c.

(** [a] and [b] have a common contiguous substring of [k] bytes. *)
Definition has_common (a b : list Z) (k : nat) : Prop :=
  exists i j, common_at a b i j k.

Definition longest_common (a b : list Z) (k : nat) : Prop :=
  has_common a b k /\ forall k', has_common a b k' -> (k' <= k)%nat.

(** The password shares [k] contiguous bytes with a keyboard row or with
    a row read backwards. *)
Definition on_keyboard (lower : list Z) (k : nat) : Prop :=
  exists row, In row keyboardRows /\
    (has_common lower (bytes row) k \/ has_common lower (rev (bytes row)) k).




(** The bytes [sub] occur in [s] as a contiguous run. *)
Definition occurs_in (sub s : list Z) : Prop :=
  exists pre post, s = pre ++ sub ++ post.

(** A dictionary word the loop of [penaltyDictionarySubstring] takes into
    account: at least four bytes long, occurring in the password or in
    its leet normal form. *)
Definition is_candidate (lower word : string) : Prop :=
  4 <= len word /\
  (occurs_in (bytes word) (bytes lower) \/
   occurs_in (bytes word) (bytes (leetNormalize lower))).

(** The share of the password that a word covers, as the code computes
    it. *)
Definition match_ratio (word lower : string) : float :=
  (float64_of_int (len word) / float64_of_int (len lower))%float.

(** [m] is the first of the longest candidates among [ws]. *)
Definition first_longest (lower : string) (ws : list string) (m : string) : Prop :=
  is_candidate lower m /\
  exists before after, ws = before ++ m :: after /\
    (forall w, In w before -> is_candidate lower w -> len w < len m) /\
    (forall w, In w after -> is_candidate lower w -> len w <= len m).

Section Classes.
Context `{GoLib}.

(** The case of the [switch] of [charClasses] a rune falls into: the
    cases are tried in order. *)
Definition counts_lower (r : rune) : bool := unicode_IsLower r.
Definition counts_upper (r : rune) : bool :=
  negb (unicode_IsLower r) && unicode_IsUpper r.
Definition counts_number (r : rune) : bool :=
  negb (unicode_IsLower r) && negb (unicode_IsUpper r) && unicode_IsDigit r.
Definition counts_symbol (r : rune) : bool :=
  negb (unicode_IsLower r) && negb (unicode_IsUpper r) && negb (unicode_IsDigit r)
  && (unicode_IsPunct r || unicode_IsSymbol r).

(** The [default] case of the [switch] of [effectivePoolSize]. *)
Definition counts_other (r : rune) : bool :=
  negb (unicode_IsLower r) && negb (unicode_IsUpper r) && negb (unicode_IsDigit r).

(** The score before the penalties. *)
Definition raw_score (password : string) : Z :=
  entropyToScore (calculateEntropy password).


End Classes.

(** Length two to three, all four classes required. *)
Definition short_for_four_classes : PasswordValidator :=
  @NewPasswordValidator ascii_lib sample_embedded 2 3 true true true true 50.

End MoreVocabulary.
Export MoreVocabulary.

(* ===================================================================== *)
(** * Properties                                                          *)
(* ===================================================================== *)

(** ** Construction clamps its arguments *)

Section Construction.
Context `{GoLib} `{Embedded}.

(** C8: [NewPasswordValidatorWithDict] is defined on all arguments and
    clamps them: a minimum below 1 is stored as 1, a maximum below the
    stored minimum is stored as that minimum, a complexity below 0 is stored
    as 0 and one above 100 as 100; arguments inside their range and the four
    flags are stored as given, and a dictionary is always attached. *)
Theorem constructor_clamps (min max : Z) (lower upper numbers symbols : bool)
    (complexity : Z) (customDict : string) :
  let v := NewPasswordValidatorWithDict min max lower upper numbers symbols
                                        complexity customDict in
  (min < 1 -> MinLength v = 1) /\
  (1 <= min -> MinLength v = min) /\
  (max < MinLength v -> MaxLength v = MinLength v) /\
  (MinLength v <= max -> MaxLength v = max) /\
  (complexity < 0 -> Complexity v = 0) /\
  (100 < complexity -> Complexity v = 100) /\
  (0 <= complexity <= 100 -> Complexity v = complexity) /\
  1 <= MinLength v <= MaxLength v /\
  0 <= Complexity v <= 100 /\
  (RequireLower v, RequireUpper v, RequireNumbers v, RequireSymbols v)
    = (lower, upper, numbers, symbols) /\
  dict v <> None.
Proof.
  cbn -[loadDictionary globalDict Z.ltb].
  destruct (Z.ltb_spec complexity 0); destruct (Z.ltb_spec min 1);
    repeat match goal with
           | |- context [?a <? ?b] => destruct (Z.ltb_spec a b)
           end;
    repeat split; try (intros; lia); try reflexivity; intro; discriminate.
Qed.

End Construction.

(** ** The order of map iteration and the verdict *)

Lemma same_verdict_refl p : same_verdict p p.
Proof. repeat split. Qed.

Lemma find_some_perm {A} (f : A -> bool) (l1 l2 : list A) x :
  Permutation l1 l2 -> List.find f l1 = Some x ->
  exists y, List.find f l2 = Some y.
Proof.
  intros Hp Hf. apply find_some in Hf as [Hin Hfx].
  destruct (List.find f l2) as [y|] eqn:E; [eauto|].
  exfalso. eapply find_none in E; [|eapply Permutation_in; eauto].
  congruence.
Qed.

Lemma leetVariants_perm o1 o2 s :
  Permutation (leetVariants o1 s) (leetVariants o2 s).
Proof.
  unfold leetVariants.
  etransitivity; [apply range_keys_perm|].
  symmetry. apply range_keys_perm.
Qed.

Lemma penaltyCommonPassword_order o1 o2 lower d :
  option_Forall2 same_verdict (penaltyCommonPassword o1 lower d)
                              (penaltyCommonPassword o2 lower d).
Proof.
  unfold penaltyCommonPassword. destruct d as [d|]; [|constructor].
  destruct (contains d lower); [constructor; apply same_verdict_refl|].
  destruct (List.find (contains d) (leetVariants o1 lower)) as [x|] eqn:E1.
  - destruct (find_some_perm _ _ _ _ (leetVariants_perm o1 o2 lower) E1) as [y ->].
    constructor. repeat split; cbn. congruence.
  - destruct (List.find (contains d) (leetVariants o2 lower)) as [y|] eqn:E2;
      [|constructor].
    destruct (find_some_perm _ _ _ _ (leetVariants_perm o2 o1 lower) E2) as [z Hz].
    congruence.
Qed.

Section OrderIndependence.
Context `{GoLib}.

Lemma add_penalty_order ps qs p q :
  Forall2 same_verdict ps qs -> option_Forall2 same_verdict p q ->
  Forall2 same_verdict (add_penalty ps p) (add_penalty qs q).
Proof.
  intros Hl [p' q' Hp|]; cbn; [|exact Hl].
  apply Forall2_app; [exact Hl|]. repeat constructor; apply Hp.
Qed.

Lemma same_verdict_option p : option_Forall2 same_verdict p p.
Proof. destruct p; constructor. apply same_verdict_refl. Qed.

Lemma detectPenalties_order o1 o2 password d :
  Forall2 same_verdict (detectPenalties o1 password d)
                       (detectPenalties o2 password d).
Proof.
  unfold detectPenalties.
  repeat (apply add_penalty_order; [|try apply same_verdict_option]).
  - constructor.
  - apply penaltyCommonPassword_order.
Qed.

Lemma apply_penalties_score ps qs s acc1 acc2 :
  Forall2 same_verdict ps qs ->
  fst (foldl apply_penalty (s, acc1) ps) = fst (foldl apply_penalty (s, acc2) qs).
Proof.
  intros Hf. revert s acc1 acc2.
  induction Hf as [|p q ps qs [_ [Hfac _]] _ IH]; intros s acc1 acc2; [reflexivity|].
  cbn [foldl].
  change (apply_penalty (s, acc1) p)
    with (int_of_float (float64_of_int s * Factor p)%float, acc1 ++ [p]).
  change (apply_penalty (s, acc2) q)
    with (int_of_float (float64_of_int s * Factor q)%float, acc2 ++ [q]).
  rewrite Hfac. apply IH.
Qed.

Lemma apply_penalties_applied ps s acc :
  snd (foldl apply_penalty (s, acc) ps) = acc ++ ps.
Proof.
  revert s acc. induction ps as [|p ps IH]; intros s acc; cbn.
  - by rewrite app_nil_r.
  - change (apply_penalty (s, acc) p)
      with (int_of_float (float64_of_int s * Factor p)%float, acc ++ [p]).
    rewrite IH, <- app_assoc. reflexivity.
Qed.

(** The three results of [validate], field by field. *)
Lemma validate_score order v password :
  snd (fst (validate order v password)) = final_score order v password.
Proof.
  unfold validate, final_score.
  destruct (foldl apply_penalty _ _) as [score applied]. reflexivity.
Qed.

Lemma validate_pass order v password :
  fst (fst (validate order v password)) =
  (length (rule_checks v password) =? 0)%nat
    && (Complexity v <=? final_score order v password).
Proof.
  unfold validate, final_score.
  destruct (foldl apply_penalty _ _) as [score applied]. reflexivity.
Qed.

Lemma validate_penalties order v password :
  Penalties (snd (validate order v password)) =
  detectPenalties order password (dict v).
Proof.
  unfold validate.
  pose proof (apply_penalties_applied (detectPenalties order password (dict v))
                (entropyToScore (calculateEntropy password)) []) as Ha.
  destruct (foldl apply_penalty _ _) as [score applied]. cbn in *. exact Ha.
Qed.

Lemma validate_rulefails order v password :
  RuleFails (snd (validate order v password)) =
  if negb (Complexity v <=? final_score order v password)
  then rule_checks v password ++
       ["complexity " +:+ fmt_d (final_score order v password)
        +:+ " below threshold " +:+ fmt_d (Complexity v)]
  else rule_checks v password.
Proof.
  unfold validate, final_score.
  destruct (foldl apply_penalty _ _) as [score applied]. reflexivity.
Qed.

Lemma final_score_order o1 o2 v password :
  final_score o1 v password = final_score o2 v password.
Proof.
  unfold final_score.
  rewrite (apply_penalties_score _ _ _ [] [] (detectPenalties_order o1 o2 password (dict v))).
  reflexivity.
Qed.

(** C6: [Validate] and [ValidateVerbose] return the same pass value and
    the same score for every password and validator, whatever order the
    map iteration takes in either call, and the error of
    [ValidateVerbose] is [nil] exactly when the password passes. *)
Theorem verbose_agrees_with_terse (o1 o2 : MapOrder) (v : PasswordValidator)
    (password : string) :
  fst (Validate o1 v password) = fst (fst (ValidateVerbose o2 v password)) /\
  snd (Validate o1 v password) = snd (fst (ValidateVerbose o2 v password)) /\
  (snd (ValidateVerbose o2 v password) = None <->
   fst (fst (ValidateVerbose o2 v password)) = true).
Proof.
  pose proof (validate_pass o1 v password) as Hp1.
  pose proof (validate_score o1 v password) as Hs1.
  pose proof (validate_pass o2 v password) as Hp2.
  pose proof (validate_score o2 v password) as Hs2.
  rewrite (final_score_order o1 o2) in Hp1, Hs1.
  unfold Validate, ValidateVerbose.
  destruct (validate o1 v password) as [[pass1 score1] e1].
  destruct (validate o2 v password) as [[pass2 score2] e2].
  cbn in *. subst.
  destruct (_ && _); cbn; repeat split; congruence.
Qed.


End OrderIndependence.

(** ** Leet variants *)

Lemma leetMap_nonempty r reps : leetMap !! r = Some reps -> reps <> [].
Proof.
  intros Hl. unfold leetMap in Hl.
  apply elem_of_list_to_map_2 in Hl.
  repeat (apply elem_of_cons in Hl as [Hl|Hl]; [injection Hl as _ ->; discriminate|]).
  by apply elem_of_nil in Hl.
Qed.

Lemma canonical_alternative r : canonical r ∈ alternatives r.
Proof.
  unfold canonical, alternatives.
  destruct (leetMap !! r) as [reps|] eqn:E; cbn.
  - destruct reps as [|x reps]; [by apply leetMap_nonempty in E|]. cbn. left.
  - left.
Qed.

Lemma ambiguous_positions_cons r rs :
  ambiguous_positions (r :: rs) =
  (if is_ambiguous r then [0%nat] else []) ++ map S (ambiguous_positions rs).
Proof.
  unfold ambiguous_positions. cbn [length seq List.filter nth].
  assert (Hs : forall l, List.filter (fun i => is_ambiguous (nth i (r :: rs) 0)) (map S l)
                   = map S (List.filter (fun i => is_ambiguous (nth i rs 0)) l)).
  { induction l as [|x l IH]; [reflexivity|].
    change (map S (x :: l)) with (S x :: map S l).
    change (List.filter ?f (?a :: ?t)) with (if f a then a :: List.filter f t else List.filter f t).
    cbv beta. rewrite IH. change (nth (S x) (r :: rs) 0) with (nth x rs 0).
    destruct (is_ambiguous (nth x rs 0)); reflexivity. }
  rewrite <- seq_shift, Hs. destruct (is_ambiguous r); reflexivity.
Qed.

Lemma find_ambiguities_spec rs i0 :
  find_ambiguities i0 rs =
  map (fun j => {| pos := i0 + j; options := alternatives (nth j rs 0) |})
      (ambiguous_positions rs).
Proof.
  revert i0. induction rs as [|r rs IH]; intros i0; [reflexivity|].
  rewrite ambiguous_positions_cons, map_app, map_map.
  change (find_ambiguities i0 (r :: rs)) with
    (match leetMap !! r with
     | Some replacements =>
       if (1 <? length replacements)%nat
       then {| pos := i0; options := replacements |} :: find_ambiguities (S i0) rs
       else find_ambiguities (S i0) rs
     | None => find_ambiguities (S i0) rs
     end).
  rewrite IH.
  assert (He : map (fun j => {| pos := S i0 + j; options := alternatives (nth j rs 0) |})
                   (ambiguous_positions rs)
             = map (fun x => {| pos := i0 + S x; options := alternatives (nth (S x) (r :: rs) 0) |})
                   (ambiguous_positions rs)).
  { apply map_ext. intros j. change (nth (S j) (r :: rs) 0) with (nth j rs 0).
    f_equal. lia. }
  rewrite He. unfold is_ambiguous.
  destruct (leetMap !! r) as [reps|] eqn:E; [|reflexivity].
  destruct (1 <? length reps)%nat; [|reflexivity].
  change (map ?f [0%nat]) with [f 0%nat]. cbv beta.
  change (nth 0 (r :: rs) 0) with r.
  assert (Ha : alternatives r = reps) by (unfold alternatives; by rewrite E).
  rewrite Ha, Nat.add_0_r. reflexivity.
Qed.

Lemma find_ambiguities_at rs :
  find_ambiguities 0 rs = map (ambiguity_at rs) (ambiguous_positions rs).
Proof. apply find_ambiguities_spec. Qed.

Lemma ambiguous_positions_NoDup rs : NoDup (ambiguous_positions rs).
Proof.
  unfold ambiguous_positions. apply NoDup_ListNoDup, List.NoDup_filter, List.seq_NoDup.
Qed.

Lemma ambiguous_positions_lt rs i : i ∈ ambiguous_positions rs -> (i < length rs)%nat.
Proof.
  unfold ambiguous_positions. rewrite list_elem_of_In, filter_In, in_seq. lia.
Qed.

Lemma extend_combos_fold sel init c :
  c ∈ foldl extend_combos init sel <->
  exists c0 choice, c0 ∈ init /\
    Forall2 (fun a o => o ∈ options a) sel choice /\ c = c0 ++ choice.
Proof.
  revert init c. induction sel as [|a sel IH]; intros init c.
  - change (foldl extend_combos init []) with init. split.
    + intros Hc. exists c, []. rewrite app_nil_r. repeat split; [done|constructor].
    + intros (c0 & choice & Hc0 & Hf & ->). inversion Hf. by rewrite app_nil_r.
  - change (foldl extend_combos init (a :: sel))
      with (foldl extend_combos (extend_combos init a) sel).
    rewrite IH. split.
    + intros (c1 & choice & Hc1 & Hf & ->).
      unfold extend_combos in Hc1.
      rewrite list_elem_of_In, in_flat_map in Hc1. destruct Hc1 as (c0 & Hc0 & Hin).
      rewrite in_map_iff in Hin. destruct Hin as (o & <- & Ho).
      exists c0, (o :: choice). rewrite <- app_assoc. repeat split.
      * by apply list_elem_of_In.
      * constructor; [by apply list_elem_of_In|done].
    + intros (c0 & choice & Hc0 & Hf & ->).
      inversion Hf as [|a' o sel' choice' Ho Hf']; subst.
      exists (c0 ++ [o]), choice'. rewrite <- app_assoc. repeat split; [|done].
      unfold extend_combos. rewrite list_elem_of_In, in_flat_map.
      exists c0. split; [by apply list_elem_of_In|].
      rewrite in_map_iff. exists o. split; [done|by apply list_elem_of_In].
Qed.

Lemma expands_at_nil rs vr : expands_at [] rs vr <-> vr = map canonical rs.
Proof.
  split.
  - intros [Hlen Hp]. apply list_eq. intros i. rewrite list_lookup_fmap.
    destruct (rs !! i) as [r|] eqn:Er; cbn.
    + destruct (vr !! i) as [x|] eqn:Ex.
      * specialize (Hp i r x Er Ex). destruct (decide (i ∈ [])) as [Hin|_].
        { by apply elem_of_nil in Hin. }
        by subst.
      * apply lookup_ge_None in Ex. apply lookup_lt_Some in Er. lia.
    + apply lookup_ge_None. apply lookup_ge_None in Er. lia.
  - intros ->. split; [by rewrite length_map|].
    intros i r x Er Ex. rewrite list_lookup_fmap, Er in Ex.
    destruct (decide (i ∈ [])) as [Hin|_]; [by apply elem_of_nil in Hin|].
    cbn in Ex. congruence.
Qed.

Lemma elem_snoc_self {A} (p : A) (P : list A) : p ∈ P ++ [p].
Proof. apply elem_of_app. right. apply list_elem_of_singleton. reflexivity. Qed.

Lemma elem_snoc_other {A} (i p : A) (P : list A) :
  i <> p -> (i ∈ P ++ [p] <-> i ∈ P).
Proof.
  intros Hne. rewrite elem_of_app, list_elem_of_singleton. tauto.
Qed.

Ltac same_membership i P p :=
  destruct (decide (i ∈ P)); destruct (decide (i ∈ P ++ [p]));
  first [assumption | exfalso; tauto].

Lemma apply_positions rs P vr :
  NoDup P -> (forall p, p ∈ P -> (p < length rs)%nat) ->
  (exists choice,
      Forall2 (fun a o => o ∈ options a) (map (ambiguity_at rs) P) choice /\
      vr = foldl (fun result ac => <[pos (fst ac) := snd ac]> result)
                 (map canonical rs) (zip (map (ambiguity_at rs) P) choice))
  <-> expands_at P rs vr.
Proof.
  revert vr. induction P as [|p P IH] using rev_ind; intros vr Hnd Hlt.
  - rewrite expands_at_nil. split.
    + intros (choice & Hf & ->). inversion Hf. reflexivity.
    + intros ->. exists []. split; [constructor|reflexivity].
  - apply NoDup_app in Hnd as (HndP & Hnotin & _).
    assert (HpP : p ∉ P).
    { intros Hin. apply (Hnotin p Hin). left. }
    assert (Hp : (p < length rs)%nat) by (apply Hlt, elem_snoc_self).
    assert (HltP : forall q, q ∈ P -> (q < length rs)%nat).
    { intros q Hq. apply Hlt, elem_of_app. by left. }
    destruct (lookup_lt_is_Some_2 rs p Hp) as [r Hr].
    assert (Hnth : nth p rs 0 = r).
    { apply nth_lookup_Some with (d := 0) in Hr. exact Hr. }
    split.
    + intros (choice & Hf & ->).
      rewrite map_app in Hf. apply Forall2_app_inv_l in Hf
        as (choice' & tl & Hf' & Hfo & ->).
      apply Forall2_cons_inv_l in Hfo as (o & tl' & Ho & Hnil & ->).
      apply Forall2_nil_inv_l in Hnil as ->.
      rewrite map_app.
      rewrite zip_with_app by (by eapply Forall2_length).
      rewrite foldl_app.
      set (vr' := foldl _ _ (zip (map (ambiguity_at rs) P) choice')).
      assert (He : expands_at P rs vr').
      { apply IH; [done|done|]. exists choice'. split; [done|reflexivity]. }
      destruct He as [Hlen Hpt].
      change (expands_at (P ++ [p]) rs (<[p := o]> vr')).
      split; [by rewrite length_insert|].
      intros i r' x Er Ex.
      destruct (decide (i = p)) as [->|Hne].
      * rewrite list_lookup_insert_eq in Ex by lia. injection Ex as <-.
        destruct (decide (p ∈ P ++ [p])) as [_|Hn];
          [|by destruct Hn; apply elem_snoc_self].
        cbn in Ho. rewrite Hnth in Ho. congruence.
      * rewrite list_lookup_insert_ne in Ex by done.
        specialize (Hpt i r' x Er Ex).
        pose proof (elem_snoc_other i p P Hne) as Hiff.
        same_membership i P p.
    + intros [Hlen Hpt].
      assert (Hpv : (p < length vr)%nat) by lia.
      destruct (lookup_lt_is_Some_2 vr p Hpv) as [o Ho].
      pose proof (Hpt p r o Hr Ho) as Hor.
      destruct (decide (p ∈ P ++ [p])) as [_|Hn];
        [|by destruct Hn; apply elem_snoc_self].
      set (vr' := <[p := canonical r]> vr).
      assert (He : expands_at P rs vr').
      { split; [unfold vr'; by rewrite length_insert|].
        intros i r' x Er Ex. unfold vr' in Ex.
        destruct (decide (i = p)) as [->|Hne].
        - rewrite list_lookup_insert_eq in Ex by lia. injection Ex as <-.
          destruct (decide (p ∈ P)); [done|congruence].
        - rewrite list_lookup_insert_ne in Ex by done.
          specialize (Hpt i r' x Er Ex).
          pose proof (elem_snoc_other i p P Hne) as Hiff.
        same_membership i P p. }
      apply IH in He as (choice' & Hf' & Hvr'); [|done|done].
      exists (choice' ++ [o]). split.
      * rewrite map_app. apply Forall2_app; [done|].
        repeat constructor. cbn. by rewrite Hnth.
      * rewrite map_app, zip_with_app by (by eapply Forall2_length).
        rewrite foldl_app. rewrite <- Hvr'. cbn. unfold vr'.
        rewrite list_insert_insert_eq. symmetry. by apply list_insert_id.
Qed.

Lemma foldl_insert_lookup {A} (f : A -> string) (l : list A)
    (m : gmap string bool) k :
  is_Some (foldl (fun vs c => <[f c := true]> vs) m l !! k)
  <-> is_Some (m !! k) \/ exists c, c ∈ l /\ f c = k.
Proof.
  revert m. induction l as [|c l IH]; intros m.
  - cbn. split; [auto|]. intros [Hm|(c & Hc & _)]; [done|]. by apply elem_of_nil in Hc.
  - cbn [foldl]. rewrite IH, lookup_insert_is_Some. split.
    + intros [[Hk|[_ Hm]]|(c' & Hc' & <-)].
      * right. exists c. split; [left|done].
      * by left.
      * right. exists c'. split; [by right|done].
    + intros [Hm|(c' & Hc' & <-)].
      * destruct (decide (f c = k)); [left; by left|left; right; done].
      * apply elem_of_cons in Hc' as [->|Hc'].
        -- left. by left.
        -- right. eauto.
Qed.

Lemma first_two_positions rs :
  let P := take 2 (ambiguous_positions rs) in
  NoDup P /\ (forall p, p ∈ P -> (p < length rs)%nat) /\
  forall limit,
    limit = (if (2 <? length (find_ambiguities 0 rs))%nat then 2%nat
             else length (find_ambiguities 0 rs)) ->
    take limit (find_ambiguities 0 rs) = map (ambiguity_at rs) P /\
    ((0 <? limit)%nat = false -> P = []).
Proof.
  intros P. repeat split.
  - apply (sublist_NoDup _ (ambiguous_positions rs)).
    + apply ambiguous_positions_NoDup.
    + apply sublist_take.
  - intros p Hp. apply ambiguous_positions_lt.
    by apply (subseteq_take 2 (ambiguous_positions rs)).
  - subst limit. rewrite find_ambiguities_at, length_map. unfold P.
    rewrite <- fmap_take.
    destruct (Nat.ltb_spec 2 (length (ambiguous_positions rs))); [reflexivity|].
    rewrite !take_ge by (rewrite ?length_map; lia). reflexivity.
  - subst limit. rewrite find_ambiguities_at, length_map. unfold P.
    destruct (Nat.ltb_spec 2 (length (ambiguous_positions rs))); [discriminate|].
    intros H0. apply Nat.ltb_ge in H0.
    destruct (ambiguous_positions rs); [reflexivity|cbn in H0; lia].
Qed.

Lemma variants_map_lookup s v :
  is_Some (variants_map s !! v) <->
  exists vr, v = of_runes vr /\ expands_first_two (runes s) vr.
Proof.
  change (expands_first_two (runes s)) with
    (expands_at (take 2 (ambiguous_positions (runes s))) (runes s)).
  destruct (first_two_positions (runes s)) as (Hnd & Hlt & Hlim).
  unfold variants_map.
  set (limit := if (2 <? _)%nat then _ else _).
  destruct (Hlim limit eq_refl) as [Htake Hzero]. clear Hlim.
  set (P := take 2 (ambiguous_positions (runes s))) in *.
  assert (Hcanon : expands_at P (runes s) (map canonical (runes s))).
  { split; [by rewrite length_map|]. intros i r x Er Ex.
    rewrite list_lookup_fmap, Er in Ex. injection Ex as <-.
    destruct (decide (i ∈ P)); [apply canonical_alternative|reflexivity]. }
  destruct (0 <? limit)%nat eqn:Epos.
  - rewrite foldl_insert_lookup, lookup_singleton_is_Some.
    unfold gen_combos, apply_combo. rewrite Htake. split.
    + intros [<-|(combo & Hc & <-)].
      * exists (map canonical (runes s)). split; [reflexivity|exact Hcanon].
      * eexists. split; [reflexivity|].
        apply extend_combos_fold in Hc as (c0 & choice & Hc0 & Hf & ->).
        apply list_elem_of_singleton in Hc0 as ->.
        apply apply_positions; [done|done|]. exists choice. split; [done|reflexivity].
    + intros (vr & -> & He). right.
      apply apply_positions in He as (choice & Hf & ->); [|done|done].
      exists choice. split; [|reflexivity].
      apply extend_combos_fold. exists [], choice.
      repeat split; [apply list_elem_of_singleton; reflexivity|done].
  - rewrite lookup_singleton_is_Some. rewrite (Hzero eq_refl) in *.
    split.
    + intros <-. exists (map canonical (runes s)). split; [reflexivity|exact Hcanon].
    + intros (vr & -> & He). apply expands_at_nil in He as ->. reflexivity.
Qed.

Lemma leetVariants_In order s v :
  In v (leetVariants order s) <-> is_Some (variants_map s !! v).
Proof.
  unfold leetVariants. split.
  - intros Hin. apply (Permutation_in _ (range_keys_perm order _)) in Hin.
    apply in_map_iff in Hin as ([k b] & <- & Hin).
    apply list_elem_of_In, elem_of_map_to_list in Hin. cbn. eauto.
  - intros [b Hb].
    apply (Permutation_in _ (Permutation_sym (range_keys_perm order _))).
    apply in_map_iff. exists (v, b). split; [reflexivity|].
    by apply list_elem_of_In, elem_of_map_to_list.
Qed.

(** C7: [leetVariants] returns, without repetition, exactly the strings
    obtained from the input by writing the canonical letter at every
    position except the first two ambiguous ones (from the left), which
    take each of their alternatives; the canonical normalisation
    [leetNormalize] of the input is always among them; and for ["p@ss1"]
    both ["passi"] and ["passl"] are returned, so at least two strings. *)
Theorem leetVariants_first_two_ambiguous (order : MapOrder) (s : string) :
  (forall v, In v (leetVariants order s) <->
             exists vr, v = of_runes vr /\ expands_first_two (runes s) vr) /\
  NoDup (leetVariants order s) /\
  In (leetNormalize s) (leetVariants order s) /\
  In "passi"%string (leetVariants order "p@ss1") /\
  In "passl"%string (leetVariants order "p@ss1") /\
  (2 <= length (leetVariants order "p@ss1"))%nat.
Proof.
  split; [|split; [|split]].
  - intros v. rewrite leetVariants_In. apply variants_map_lookup.
  - unfold leetVariants.
    apply NoDup_ListNoDup.
    eapply Permutation_NoDup; [symmetry; apply range_keys_perm|].
    apply NoDup_ListNoDup, NoDup_fst_map_to_list.
  - apply leetVariants_In. unfold variants_map.
    destruct (0 <? _)%nat.
    + apply foldl_insert_lookup. left. by apply lookup_singleton_is_Some.
    + by apply lookup_singleton_is_Some.
  - assert (Hkeys : map fst (map_to_list (variants_map "p@ss1")) = ["passi"; "passl"]%string)
      by (vm_compute; reflexivity).
    unfold leetVariants. rewrite Hkeys.
    pose proof (range_keys_perm order ["passi"; "passl"]%string) as Hp.
    repeat split.
    + apply (Permutation_in _ (Permutation_sym Hp)). left. reflexivity.
    + apply (Permutation_in _ (Permutation_sym Hp)). right. left. reflexivity.
    + rewrite (Permutation_length Hp). cbn. lia.
Qed.

(** ** The generator *)

Lemma generateCandidate_out_of_range (v : PasswordValidator) (tp : tape) (k : nat) :
  MinLength v = 1 -> MaxLength v = 1 ->
  RequireLower v = true -> RequireUpper v = true ->
  generateCandidate v tp k = Panic "index out of range".
Proof.
  intros Hmin Hmax Hl Hu. unfold generateCandidate.
  rewrite Hmin, Hmax, Hl, Hu.
  assert (Hb : (0 <= tp k mod 26 < 26)) by (apply Z.mod_pos_bound; lia).
  assert (Hc : exists c, bytes lowerChars !! Z.to_nat (tp k mod 26) = Some c).
  { apply lookup_lt_is_Some_2. change (length (bytes lowerChars)) with 26%nat. lia. }
  destruct Hc as [c Hc].
  assert (Hfill : forall required,
             fill_required (lowerChars :: upperChars :: required) [0] [0] 0 tp k
             = Panic "index out of range").
  { intros required. cbn [fill_required]. unfold bind at 1.
    unfold rand_Int at 1. change (len lowerChars) with 26.
    change (26 <=? 0) with false. cbv iota.
    unfold bind at 1. change (index [0] 0 tp (S k)) with (@Done (Z * nat) (0, S k)).
    cbv iota. unfold bind at 1. unfold index at 1.
    destruct (Z.ltb_spec (tp k mod 26) 0) as [?|_]; [lia|].
    rewrite Hc. unfold ret at 1. cbv iota.
    unfold bind at 1. change (store [0] 0 c tp (S k)) with (@Done (list Z * nat) ([c], S k)).
    cbv iota. cbn [fill_required]. unfold bind at 1.
    unfold rand_Int at 1. change (len upperChars) with 26.
    change (26 <=? 0) with false. cbv iota.
    unfold bind at 1. reflexivity. }
  destruct (RequireNumbers v), (RequireSymbols v);
    cbn -[fill_required fill_rest of_bytes lowerChars upperChars];
    unfold bind at 1; cbn -[fill_required fill_rest of_bytes lowerChars upperChars];
    unfold bind at 1;
    change (shuffle _ _ tp k) with (@Done (list Z * nat) ([0], k));
    change (replicate (Z.to_nat 1) 0) with [0];
    cbv iota; rewrite Hfill; reflexivity.
Qed.

Section GeneratorPanics.
Context `{GoLib}.

(** C1, at its failing input: under the validator built by
    [NewPasswordValidator(1, 1, true, true, false, false, 0)] the call
    [Generate()] panics with an index out of range, whatever the random
    source delivers: the second required character is written through
    [positions[1]] of a slice of length 1. *)
Theorem Generate_panics_on_short_length (order : MapOrder) (tp : tape) (k : nat) :
  Generate order one_char_two_classes tp k = Panic "index out of range".
Proof.
  unfold Generate, maxAttempts.
  change 1000%nat with (S 999).
  cbn [generate_loop]. unfold bind.
  rewrite generateCandidate_out_of_range by reflexivity. reflexivity.
Qed.

End GeneratorPanics.

(** ** Lengths are counted in bytes *)

(** C2, at its failing input: the password U+00E9 is one code point, and
    the validator built by [NewPasswordValidator(1, 1, false, false, false,
    false, 0)] admits exactly one character, yet [validate] reports it as
    too long, because [len] counts its two bytes. *)
Theorem length_rule_counts_bytes :
  length (runes e_acute) = 1%nat /\
  len e_acute = 2 /\
  MinLength one_byte_validator = 1 /\
  MaxLength one_byte_validator = 1 /\
  In "too long: maximum 1 characters"%string
     (RuleFails (snd (@validate ascii_lib order_stored one_byte_validator e_acute))).
Proof.
  split; [vm_compute; reflexivity|].
  split; [vm_compute; reflexivity|].
  split; [vm_compute; reflexivity|].
  split; [vm_compute; reflexivity|].
  rewrite validate_rulefails.
  assert (Hr : @rule_checks ascii_lib one_byte_validator e_acute
               = ["too long: maximum 1 characters"%string])
    by (vm_compute; reflexivity).
  rewrite Hr. destruct (negb _); left; reflexivity.
Qed.

(** ** The text of the leet penalty follows the map order *)



(** ** Repeated characters *)









Lemma len_bytes s : len s = Z.of_nat (length (bytes s)).
Proof.
  unfold len, bytes. rewrite length_map. f_equal.
  induction s as [|c s IH]; cbn; [reflexivity|by rewrite IH].
Qed.



(** ** Penalties only lower the score *)

Ltac in_factors := cbn [Factor]; repeat first [left; reflexivity | right].

Lemma penaltyCommonPassword_factor order lower d p :
  penaltyCommonPassword order lower d = Some p -> In (Factor p) emitted_factors.
Proof.
  unfold penaltyCommonPassword. destruct d as [d|]; [|discriminate].
  destruct (contains d lower); [intros [= <-]; in_factors|].
  destruct (List.find _ _); [intros [= <-]; in_factors|discriminate].
Qed.

Lemma penaltyRepeatedChars_factor lower p :
  penaltyRepeatedChars lower = Some p -> In (Factor p) emitted_factors.
Proof.
  unfold penaltyRepeatedChars.
  destruct (len lower <? 3); [discriminate|].
  destruct (4 <=? _); [|destruct (3 <=? _)];
    (destruct (_ <? 0.4)%float; [|destruct (_ <? 0.6)%float]);
    cbv zeta;
    match goal with
    | |- context [(?f <? 1.0)%float] =>
      let b := eval vm_compute in (f <? 1.0)%float in
      change (f <? 1.0)%float with b
    end;
    cbv iota; first [discriminate | intros [= <-]; in_factors].
Qed.

Lemma penaltySequentialChars_factor lower p :
  penaltySequentialChars lower = Some p -> In (Factor p) emitted_factors.
Proof.
  unfold penaltySequentialChars.
  destruct (len lower <? 3); [discriminate|].
  destruct (5 <=? _); [intros [= <-]; in_factors|].
  destruct (4 <=? _); [intros [= <-]; in_factors|].
  destruct (3 <=? _); [intros [= <-]; in_factors|discriminate].
Qed.

Lemma penaltyKeyboardPatterns_factor lower p :
  penaltyKeyboardPatterns lower = Some p -> In (Factor p) emitted_factors.
Proof.
  unfold penaltyKeyboardPatterns.
  destruct (6 <=? _); [intros [= <-]; in_factors|].
  destruct (5 <=? _); [intros [= <-]; in_factors|].
  destruct (4 <=? _); [intros [= <-]; in_factors|discriminate].
Qed.

Lemma penaltyDictionarySubstring_factor lower d p :
  penaltyDictionarySubstring lower d = Some p -> In (Factor p) emitted_factors.
Proof.
  unfold penaltyDictionarySubstring. destruct d as [d|]; [|discriminate].
  destruct (String.eqb _ _); [discriminate|].
  destruct (0.8 <=? _)%float; [intros [= <-]; in_factors|].
  destruct (0.5 <=? _)%float; [intros [= <-]; in_factors|].
  destruct (0.3 <=? _)%float; [intros [= <-]; in_factors|discriminate].
Qed.

Lemma emitted_factors_range f :
  In f emitted_factors -> (0 <? f)%float = true /\ (f <=? 1)%float = true.
Proof.
  assert (Hall : forallb (fun f => (0 <? f)%float && (f <=? 1)%float) emitted_factors = true)
    by (vm_compute; reflexivity).
  rewrite forallb_forall in Hall. intros Hin.
  apply Hall in Hin. by apply andb_prop in Hin.
Qed.

Lemma emitted_factors_lower f s :
  In f emitted_factors -> 0 <= s <= 100 ->
  0 <= int_of_float (float64_of_int s * f)%float <= s.
Proof.
  assert (Hall : forallb (fun f => forallb (lowers_score f)
                                           (map Z.of_nat (seq 0 101)))
                         emitted_factors = true)
    by (vm_compute; reflexivity).
  rewrite forallb_forall in Hall. intros Hin Hs.
  specialize (Hall f Hin). rewrite forallb_forall in Hall.
  specialize (Hall s). unfold lowers_score in Hall.
  assert (Hmem : In s (map Z.of_nat (seq 0 101))).
  { apply in_map_iff. exists (Z.to_nat s). split; [lia|]. apply in_seq. lia. }
  apply Hall in Hmem. apply andb_prop in Hmem as [H0 H1]. lia.
Qed.

Lemma apply_penalties_lower ps s acc :
  Forall (fun p => In (Factor p) emitted_factors) ps -> 0 <= s <= 100 ->
  0 <= fst (foldl apply_penalty (s, acc) ps) <= s.
Proof.
  intros Hf. revert s acc. induction Hf as [|p ps Hp _ IH]; intros s acc Hs.
  - cbn. lia.
  - cbn [foldl].
    change (apply_penalty (s, acc) p)
      with (int_of_float (float64_of_int s * Factor p)%float, acc ++ [p]).
    pose proof (emitted_factors_lower _ s Hp Hs) as Hstep.
    assert (Hs' : 0 <= int_of_float (float64_of_int s * Factor p)%float <= 100) by lia.
    specialize (IH _ (acc ++ [p]) Hs'). lia.
Qed.

Lemma entropyToScore_range e : 0 <= entropyToScore e <= 100.
Proof.
  unfold entropyToScore. destruct (Rle_dec e 0); [lia|].
  cbv zeta.
  set (s := int_of_real _).
  destruct (Z.ltb_spec 100 s); [reflexivity || (cbn; lia)|].
  destruct (Z.ltb_spec s 0); lia.
Qed.

Section PenaltiesLower.
Context `{GoLib}.

Lemma add_penalty_factors ps p :
  Forall (fun p => In (Factor p) emitted_factors) ps ->
  (forall q, p = Some q -> In (Factor q) emitted_factors) ->
  Forall (fun p => In (Factor p) emitted_factors) (add_penalty ps p).
Proof.
  intros Hps Hp. destruct p as [q|]; cbn; [|exact Hps].
  apply Forall_app. split; [exact Hps|].
  constructor; [by apply Hp|constructor].
Qed.

Lemma detectPenalties_factors order password d :
  Forall (fun p => In (Factor p) emitted_factors) (detectPenalties order password d).
Proof.
  unfold detectPenalties.
  apply add_penalty_factors; [|apply penaltyDictionarySubstring_factor].
  apply add_penalty_factors; [|apply penaltyKeyboardPatterns_factor].
  apply add_penalty_factors; [|apply penaltySequentialChars_factor].
  apply add_penalty_factors; [|apply penaltyRepeatedChars_factor].
  apply add_penalty_factors; [|apply penaltyCommonPassword_factor].
  apply Forall_nil_2.
Qed.

Lemma final_score_le_raw order v password :
  0 <= final_score order v password <= entropyToScore (calculateEntropy password).
Proof.
  unfold final_score.
  pose proof (entropyToScore_range (calculateEntropy password)) as Hraw.
  pose proof (apply_penalties_lower _ _ [] (detectPenalties_factors order password (dict v)) Hraw)
    as Hlow.
  cbv zeta.
  set (score := fst (foldl apply_penalty _ _)) in *.
  destruct (Z.ltb_spec score 0); [lia|].
  destruct (Z.ltb_spec 100 score); lia.
Qed.

(** C9: every penalty that one of the five detectors emits has a factor
    above 0 and at most 1; so has every penalty [validate] records; and
    the score [validate] returns, the raw score of the entropy curve
    multiplied by the factors in detector order, is never above that raw
    score. *)
Theorem penalties_never_raise_score (order : MapOrder) (v : PasswordValidator)
    (password : string) :
  (forall lower d p,
      (penaltyCommonPassword order lower d = Some p \/
       penaltyRepeatedChars lower = Some p \/
       penaltySequentialChars lower = Some p \/
       penaltyKeyboardPatterns lower = Some p \/
       penaltyDictionarySubstring lower d = Some p) ->
      (0 <? Factor p)%float = true /\ (Factor p <=? 1)%float = true) /\
  Forall (fun p => (0 <? Factor p)%float = true /\ (Factor p <=? 1)%float = true)
         (Penalties (snd (validate order v password))) /\
  snd (fst (validate order v password))
    <= entropyToScore (calculateEntropy password).
Proof.
  split; [|split].
  - intros lower d p Hp. apply emitted_factors_range.
    destruct Hp as [Hp|[Hp|[Hp|[Hp|Hp]]]].
    + by eapply penaltyCommonPassword_factor.
    + by eapply penaltyRepeatedChars_factor.
    + by eapply penaltySequentialChars_factor.
    + by eapply penaltyKeyboardPatterns_factor.
    + by eapply penaltyDictionarySubstring_factor.
  - rewrite validate_penalties.
    eapply Forall_impl; [apply detectPenalties_factors|].
    intros p Hp. by apply emitted_factors_range.
  - rewrite validate_score. apply final_score_le_raw.
Qed.

End PenaltiesLower.

(** ** The score curve *)

Local Open Scope R_scope.

Lemma Int_part_IZR z : Int_part (IZR z) = z.
Proof. symmetry. apply Int_part_spec. lra. Qed.

Lemma Int_part_le x y : x <= y -> (Int_part x <= Int_part y)%Z.
Proof.
  intros Hxy.
  destruct (base_Int_part x) as [Hx _]. destruct (base_Int_part y) as [_ Hy].
  assert (Hlt : IZR (Int_part x) < IZR (Int_part y + 1)) by (rewrite plus_IZR; lra).
  apply lt_IZR in Hlt. lia.
Qed.

Lemma Int_part_bounds x (lo hi : Z) :
  IZR lo <= x -> x < IZR hi -> (lo <= Int_part x < hi)%Z.
Proof.
  intros Hlo Hhi. destruct (base_Int_part x) as [H1 H2]. split.
  - assert (Hlt : IZR lo < IZR (Int_part x + 1)) by (rewrite plus_IZR; lra).
    apply lt_IZR in Hlt. lia.
  - apply lt_IZR. lra.
Qed.

Lemma int_of_real_IZR z : int_of_real (IZR z) = z.
Proof.
  unfold int_of_real. destruct (Rle_dec 0 (IZR z)).
  - apply Int_part_IZR.
  - rewrite <- opp_IZR, Int_part_IZR. lia.
Qed.

(** [int(math.Round(x))] for a value that is not negative. *)
Lemma round_nonneg x : 0 <= x -> int_of_real (math_Round x) = Int_part (x + / 2).
Proof.
  intros Hx. unfold math_Round. destruct (Rle_dec 0 x); [|lra].
  apply int_of_real_IZR.
Qed.

Lemma curve_positive e : 0 < e -> 0 < curve e < 100.
Proof.
  intros He. unfold curve, math_Exp.
  pose proof (exp_pos (- e / 40)) as Hp.
  assert (Hlt : exp (- e / 40) < exp 0) by (apply exp_increasing; lra).
  rewrite exp_0 in Hlt. lra.
Qed.

Lemma curve_monotone e1 e2 : e1 <= e2 -> curve e1 <= curve e2.
Proof.
  intros [Hlt | ->]; [|lra]. unfold curve, math_Exp.
  assert (H : exp (- e2 / 40) < exp (- e1 / 40)) by (apply exp_increasing; lra).
  lra.
Qed.

Lemma entropyToScore_positive e :
  0 < e ->
  entropyToScore e =
  let s := Int_part (curve e + / 2) in
  let s := if (100 <? s)%Z then 100%Z else s in
  if (s <? 0)%Z then 0%Z else s.
Proof.
  intros He. unfold entropyToScore. destruct (Rle_dec e 0); [lra|].
  cbv zeta. fold (curve e). rewrite round_nonneg; [reflexivity|].
  pose proof (curve_positive e He). lra.
Qed.

(** [exp x] is at most [1 / (1 - x)] below 1, so [exp (-x)] is at most
    [1 / (1 + x)]. *)
Lemma exp_neg_bound x : 0 <= x -> exp (- x) <= / (1 + x).
Proof.
  intros Hx. rewrite exp_Ropp.
  apply Rinv_le_contravar; [lra|apply exp_ineq1_le].
Qed.

Lemma square_le x y : 0 <= x -> x <= y -> x * x <= y * y.
Proof. intros Hx Hy. apply Rmult_le_compat; lra. Qed.

Lemma exp_neg_128_40 e : e = 128 -> exp (- e / 40) <= 75 / 1000.
Proof.
  intros ->.
  match goal with
  | |- exp ?x <= _ =>
    replace x with (- (4 / 10 + 4 / 10 + (4 / 10 + 4 / 10)
                       + (4 / 10 + 4 / 10 + (4 / 10 + 4 / 10)))) by lra
  end.
  rewrite exp_Ropp, !exp_plus.
  pose proof (exp_ineq1_le (4 / 10)) as H1.
  set (a := exp (4 / 10)) in *.
  assert (H2 : 196 / 100 <= a * a).
  { apply Rle_trans with (14 / 10 * (14 / 10)); [lra|]. apply square_le; lra. }
  set (b := a * a) in *.
  assert (H4 : 384 / 100 <= b * b).
  { apply Rle_trans with (196 / 100 * (196 / 100)); [lra|]. apply square_le; lra. }
  set (c := b * b) in *.
  assert (H8 : 14 <= c * c).
  { apply Rle_trans with (384 / 100 * (384 / 100)); [lra|]. apply square_le; lra. }
  apply Rle_trans with (/ 14); [|lra].
  apply Rinv_le_contravar; lra.
Qed.

(** C5: [entropyToScore(0)] is 0, [entropyToScore(128)] lies in
    [93, 100], [entropyToScore] never decreases when the entropy grows,
    and every result lies in [0, 100]. *)
Theorem entropyToScore_curve :
  entropyToScore 0 = 0%Z /\
  (93 <= entropyToScore 128 <= 100)%Z /\
  (forall e1 e2 : R, e1 <= e2 -> (entropyToScore e1 <= entropyToScore e2)%Z) /\
  (forall e : R, (0 <= entropyToScore e <= 100)%Z).
Proof.
  split; [|split; [|split]].
  - unfold entropyToScore. destruct (Rle_dec 0 0); [reflexivity|lra].
  - rewrite entropyToScore_positive by lra. cbv zeta.
    assert (Hc : 925 / 10 <= curve 128 < 100).
    { split; [|apply curve_positive; lra].
      unfold curve, math_Exp. pose proof (exp_neg_128_40 128 eq_refl). lra. }
    assert (Hs : (93 <= Int_part (curve 128 + / 2) < 101)%Z)
      by (apply Int_part_bounds; lra).
    set (s := Int_part _) in *.
    destruct (Z.ltb_spec 100 s); [lia|].
    destruct (Z.ltb_spec s 0); lia.
  - intros e1 e2 Hle.
    destruct (Rle_dec e1 0) as [H1|H1].
    + unfold entropyToScore at 1. destruct (Rle_dec e1 0); [|lra].
      apply entropyToScore_range.
    + rewrite !entropyToScore_positive by lra. cbv zeta.
      assert (Hm : (Int_part (curve e1 + / 2) <= Int_part (curve e2 + / 2))%Z).
      { apply Int_part_le. pose proof (curve_monotone e1 e2 Hle). lra. }
      set (s1 := Int_part (curve e1 + / 2)) in *.
      set (s2 := Int_part (curve e2 + / 2)) in *.
      destruct (Z.ltb_spec 100 s1), (Z.ltb_spec 100 s2);
        repeat match goal with
               | |- context [(?a <? ?b)%Z] => destruct (Z.ltb_spec a b)
               end; lia.
  - apply entropyToScore_range.
Qed.

Local Close Scope R_scope.

(** ** The pool of a non-empty password *)

Lemma decode_nonempty bs : bs <> [] -> decode bs <> [].
Proof.
  destruct bs as [|b0 t]; [done|]. intros _.
  cbn [decode]. repeat case_match; discriminate.
Qed.

Lemma runes_nonempty s : s <> EmptyString -> runes s <> [].
Proof.
  intros Hs. apply decode_nonempty.
  destruct s; [done|]. discriminate.
Qed.

Section Pool.
Context `{GoLib}.

Lemma pool_step_some flags r : some_flag (pool_step flags r) = true.
Proof.
  destruct flags as [[[l u] d] s]. unfold pool_step.
  destruct (unicode_IsLower r); [reflexivity|].
  destruct (unicode_IsUpper r); [cbn; by rewrite orb_true_r|].
  destruct (unicode_IsDigit r); cbn; by rewrite ?orb_true_r.
Qed.

Lemma pool_step_keeps flags r :
  some_flag flags = true -> some_flag (pool_step flags r) = true.
Proof. intros _. apply pool_step_some. Qed.

Lemma pool_fold_some rs flags :
  rs <> [] \/ some_flag flags = true ->
  some_flag (foldl pool_step flags rs) = true.
Proof.
  revert flags. induction rs as [|r rs IH]; intros flags Hs.
  - destruct Hs as [Hs|Hs]; [done|exact Hs].
  - cbn [foldl]. apply IH. right. apply pool_step_some.
Qed.

Lemma pool_of_flags_bounds flags :
  some_flag flags = true -> 10 <= pool_of_flags flags <= 95.
Proof.
  destruct flags as [[[[] []] []] []]; cbn; intros Hs; try lia; discriminate.
Qed.

Lemma effectivePoolSize_bounds password :
  password <> EmptyString -> 10 <= effectivePoolSize password <= 95.
Proof.
  intros Hne. apply pool_of_flags_bounds, pool_fold_some.
  left. by apply runes_nonempty.
Qed.

End Pool.

Local Open Scope R_scope.

Lemma ln_2_pos : 0 < ln 2.
Proof. pose proof ln_lt_2. lra. Qed.

Lemma log2_ge_3 x : 8 <= x -> 3 <= math_Log2 x.
Proof.
  intros Hx. unfold math_Log2.
  assert (H8 : ln 8 = 3 * ln 2).
  { replace 8 with (2 * (2 * 2)) by lra.
    rewrite !ln_mult by lra. lra. }
  assert (Hln : ln 8 <= ln x).
  { destruct Hx as [Hx|<-]; [|lra]. left. apply ln_increasing; lra. }
  pose proof ln_2_pos as H2.
  apply Rmult_le_reg_r with (ln 2); [exact H2|].
  unfold Rdiv. rewrite Rmult_assoc, Rinv_l by lra. lra.
Qed.

Lemma curve_above_6 e : 3 <= e -> 6 <= curve e.
Proof.
  intros He. apply Rle_trans with (curve 3); [|by apply curve_monotone].
  unfold curve, math_Exp.
  match goal with
  | |- context [exp ?x] => replace x with (- (3 / 40)) by lra
  end.
  assert (H340 : 0 <= 3 / 40) by lra.
  pose proof (exp_neg_bound (3 / 40) H340) as Hb.
  assert (Hi : / (1 + 3 / 40) = 40 / 43) by (field_simplify_eq; lra).
  lra.
Qed.

Section NonEmpty.
Context `{GoLib}.

(** C10: for a non-empty password the effective pool size is at least 10,
    the entropy is the product of the length and the binary logarithm of
    the pool size (the branch for a pool of at most one is not taken) and
    is strictly positive, and the raw score is at least 1. *)
Theorem nonempty_password_has_entropy (password : string) :
  password <> EmptyString ->
  (10 <= effectivePoolSize password)%Z /\
  (effectivePoolSize password <=? 1)%Z = false /\
  calculateEntropy password =
    IZR (len password) * math_Log2 (IZR (effectivePoolSize password)) /\
  0 < calculateEntropy password /\
  (1 <= entropyToScore (calculateEntropy password))%Z.
Proof.
  intros Hne.
  pose proof (effectivePoolSize_bounds password Hne) as Hpool.
  assert (Hlen : (1 <= len password)%Z).
  { destruct password; [done|]. unfold len. cbn [String.length]. lia. }
  assert (Hbr : (effectivePoolSize password <=? 1)%Z = false) by (apply Z.leb_gt; lia).
  assert (Hcalc : calculateEntropy password =
                  IZR (len password) * math_Log2 (IZR (effectivePoolSize password))).
  { unfold calculateEntropy. rewrite Hbr.
    destruct (Z.eqb_spec (len password) 0); [lia|reflexivity]. }
  assert (Hlog : 3 <= math_Log2 (IZR (effectivePoolSize password))).
  { apply log2_ge_3. apply (IZR_le 8). lia. }
  assert (HL : 1 <= IZR (len password)) by (apply (IZR_le 1); exact Hlen).
  assert (He : 3 <= calculateEntropy password).
  { rewrite Hcalc.
    apply Rle_trans with (1 * math_Log2 (IZR (effectivePoolSize password))); [lra|].
    apply Rmult_le_compat_r; lra. }
  repeat split; try assumption; try lia; try lra.
  rewrite entropyToScore_positive by lra. cbv zeta.
  pose proof (curve_above_6 _ He) as Hc.
  assert (Hpos : 0 < calculateEntropy password) by lra.
  pose proof (curve_positive _ Hpos) as Hc100.
  assert (Hs : (6 <= Int_part (curve (calculateEntropy password) + / 2) < 101)%Z)
    by (apply Int_part_bounds; lra).
  set (s := Int_part _) in *.
  destruct (Z.ltb_spec 100 s); [reflexivity || lia|].
  destruct (Z.ltb_spec s 0); lia.
Qed.

End NonEmpty.

(** The password ["a"] is not empty. *)
Lemma nonempty_password_has_entropy_witness :
  (10 <= @effectivePoolSize ascii_lib "a")%Z /\
  (@effectivePoolSize ascii_lib "a" <=? 1)%Z = false /\
  @calculateEntropy ascii_lib "a" =
    IZR (len "a") * math_Log2 (IZR (@effectivePoolSize ascii_lib "a")) /\
  0 < @calculateEntropy ascii_lib "a" /\
  (1 <= entropyToScore (@calculateEntropy ascii_lib "a"))%Z.
Proof.
  apply (@nonempty_password_has_entropy ascii_lib "a"). discriminate.
Defined.

Local Close Scope R_scope.

(** ** The generator when the length suffices *)

Lemma rand_Int_ok max (tp : tape) k :
  0 < max ->
  rand_Int max tp k = Done (tp k mod max, S k) /\ 0 <= tp k mod max < max.
Proof.
  intros Hmax. unfold rand_Int.
  destruct (Z.leb_spec max 0); [lia|].
  split; [reflexivity|]. apply Z.mod_pos_bound. lia.
Qed.

Lemma index_ok {A} (l : list A) i x (tp : tape) k :
  0 <= i -> l !! Z.to_nat i = Some x -> index l i tp k = Done (x, k).
Proof.
  intros Hi Hl. unfold index.
  destruct (Z.ltb_spec i 0); [lia|]. rewrite Hl. reflexivity.
Qed.

Lemma index_in_range {A} (l : list A) i (tp : tape) k :
  0 <= i < Z.of_nat (length l) ->
  exists x, l !! Z.to_nat i = Some x /\ index l i tp k = Done (x, k).
Proof.
  intros Hi. destruct (lookup_lt_is_Some_2 l (Z.to_nat i)) as [x Hx]; [lia|].
  exists x. split; [exact Hx|]. apply index_ok; [lia|exact Hx].
Qed.

Lemma store_ok {A} (l : list A) i x (tp : tape) k :
  0 <= i < Z.of_nat (length l) ->
  store l i x tp k = Done (<[Z.to_nat i := x]> l, k).
Proof.
  intros Hi. unfold store.
  destruct (Z.leb_spec 0 i); [|lia].
  destruct (Z.ltb_spec i (Z.of_nat (length l))); [reflexivity|lia].
Qed.

Lemma positions_ok_lookup L positions i p :
  positions_ok L positions -> positions !! i = Some p -> 0 <= p < Z.of_nat L.
Proof.
  intros [_ Hall] Hp. rewrite Forall_lookup in Hall. by eapply Hall.
Qed.

Lemma positions_ok_insert L positions i p :
  positions_ok L positions -> 0 <= p < Z.of_nat L ->
  positions_ok L (<[i := p]> positions).
Proof.
  intros [Hlen Hall] Hp. split; [by rewrite length_insert|].
  by apply Forall_insert.
Qed.

Ltac next := cbv beta iota; unfold bind at 1.

Lemma shuffle_ok L (tp : tape) i positions k :
  (i < L)%nat -> positions_ok L positions ->
  exists positions' k',
    shuffle i positions tp k = Done (positions', k') /\ positions_ok L positions'.
Proof.
  revert positions k. induction i as [|i IH]; intros positions k Hi Hok.
  - exists positions, k. split; [reflexivity|exact Hok].
  - cbn [shuffle]. unfold bind at 1.
    destruct (rand_Int_ok (Z.of_nat (S i) + 1) tp k ltac:(lia)) as [-> Hj].
    set (j := tp k mod (Z.of_nat (S i) + 1)) in *.
    pose proof Hok as [Hlen _]. next.
    destruct (index_in_range positions j tp (S k) ltac:(lia)) as (pj & Hpj & ->).
    next.
    destruct (index_in_range positions (Z.of_nat (S i)) tp (S k) ltac:(lia))
      as (pi & Hpi & ->).
    next. rewrite store_ok by lia.
    next. rewrite store_ok by (rewrite length_insert; lia).
    cbv beta iota.
    apply IH; [lia|].
    apply positions_ok_insert; [apply positions_ok_insert; [exact Hok|]|].
    + eapply positions_ok_lookup; [exact Hok|exact Hpj].
    + eapply positions_ok_lookup; [exact Hok|exact Hpi].
Qed.



Lemma positions_ok_start L :
  positions_ok L (imap (fun i _ => Z.of_nat i) (replicate L 0)).
Proof.
  split; [by rewrite length_imap, length_replicate|].
  apply Forall_lookup. intros i p Hp.
  rewrite list_lookup_imap in Hp.
  destruct (replicate L 0 !! i) eqn:E; [|discriminate].
  apply lookup_lt_Some in E. rewrite length_replicate in E.
  cbn in Hp. injection Hp as <-. lia.
Qed.

Lemma wrap64_id z : - 2 ^ 63 <= z < 2 ^ 63 -> wrap64 z = z.
Proof.
  intros Hz. unfold wrap64. rewrite Z.mod_small; lia.
Qed.


Lemma make_ok {A} (z : A) n (tp : tape) k :
  0 <= n -> make z n tp k = Done (replicate (Z.to_nat n) z, k).
Proof.
  intros Hn. unfold make. destruct (Z.ltb_spec n 0); [lia|reflexivity].
Qed.



Section GeneratorReturns.
Context `{GoLib}.



End GeneratorReturns.


Section LengthRules.
Context `{GoLib}.

(** X2, beside C2: the rule failures for the length are reported exactly when
    the number of bytes of the password is below [MinLength],
    respectively above [MaxLength]. *)
Theorem length_rules_follow_byte_length (v : PasswordValidator) (password : string) :
  (In ("too short: minimum " +:+ fmt_d (MinLength v) +:+ " characters")
      (rule_checks v password) <-> len password < MinLength v) /\
  (In ("too long: maximum " +:+ fmt_d (MaxLength v) +:+ " characters")
      (rule_checks v password) <-> MaxLength v < len password).
Proof.
  unfold rule_checks.
  destruct (charClasses password) as [[[hasLower hasUpper] hasNumber] hasSymbol].
  destruct (Z.ltb_spec (len password) (MinLength v));
    destruct (Z.ltb_spec (MaxLength v) (len password));
    destruct (RequireLower v && negb hasLower);
    destruct (RequireUpper v && negb hasUpper);
    destruct (RequireNumbers v && negb hasNumber);
    destruct (RequireSymbols v && negb hasSymbol);
    cbn [app In String.append];
    (split; split; intros Hin; try lia; try (left; reflexivity);
     try (right; left; reflexivity);
     repeat (destruct Hin as [Hin|Hin]; [discriminate Hin|]);
     try (destruct Hin)).
Qed.

End LengthRules.

(* ===================================================================== *)
(** * Further properties                                                  *)
(* ===================================================================== *)

(** ** The verdict of [validate] *)

Section Verdict.
Context `{GoLib}.

(** X3: the score [validate] returns lies in [0, 100]; the password
    passes exactly when the list of rule failures it returns is empty; and
    the failure for the complexity is listed exactly when the score is
    below the threshold. *)
Theorem validate_pass_iff_no_failure (order : MapOrder) (v : PasswordValidator)
    (password : string) :
  0 <= snd (fst (validate order v password)) <= 100 /\
  (fst (fst (validate order v password)) = true <->
   RuleFails (snd (validate order v password)) = []) /\
  (In ("complexity " +:+ fmt_d (snd (fst (validate order v password)))
       +:+ " below threshold " +:+ fmt_d (Complexity v))
      (RuleFails (snd (validate order v password))) <->
   snd (fst (validate order v password)) < Complexity v).
Proof.
  rewrite validate_pass, validate_score, validate_rulefails.
  pose proof (final_score_le_raw order v password) as Hs.
  pose proof (entropyToScore_range (calculateEntropy password)) as Hraw.
  set (score := final_score order v password) in *.
  split; [lia|].
  assert (Hrules : forall msg, In msg (rule_checks v password) ->
            msg <> "complexity " +:+ fmt_d score +:+ " below threshold "
                   +:+ fmt_d (Complexity v)).
  { intros msg. unfold rule_checks.
    destruct (charClasses password) as [[[hasLower hasUpper] hasNumber] hasSymbol].
    destruct (len password <? MinLength v);
      destruct (MaxLength v <? len password);
      destruct (RequireLower v && negb hasLower);
      destruct (RequireUpper v && negb hasUpper);
      destruct (RequireNumbers v && negb hasNumber);
      destruct (RequireSymbols v && negb hasSymbol);
      cbn [app In String.append]; intros Hin;
      repeat (destruct Hin as [<-|Hin]; [discriminate|]); destruct Hin. }
  destruct (Z.leb_spec (Complexity v) score) as [Hc|Hc]; cbn [negb].
  - split.
    + rewrite andb_true_r. destruct (rule_checks v password); cbn; split;
        congruence.
    + split; [|lia]. intros Hin. by apply Hrules in Hin.
  - split.
    + rewrite andb_false_r. split; [discriminate|].
      intros Hnil. by apply app_eq_nil in Hnil as [_ Hnil].
    + split; [lia|]. intros _. apply in_or_app. right. left. reflexivity.
Qed.

End Verdict.

(** ** The dictionary *)

Section DictionaryLoad.
Context `{GoLib}.

Lemma load_fold_words lines d :
  words (foldl (fun d line =>
                  let word := strings_TrimSpace (strings_ToLower line) in
                  if String.eqb word EmptyString then d
                  else {| set := <[word := true]> (set d);
                          words := words d ++ [word] |}) d lines)
  = words d ++ List.filter (fun w => negb (String.eqb w EmptyString))
                           (map normalized_line lines).
Proof.
  unfold normalized_line.
  revert d. induction lines as [|line lines IH]; intros d.
  - cbn. by rewrite app_nil_r.
  - cbn [foldl map List.filter]. rewrite IH.
    destruct (String.eqb _ EmptyString); cbn [negb words]; [reflexivity|].
    by rewrite <- app_assoc.
Qed.

Lemma load_fold_set lines d w :
  set (foldl (fun d line =>
                let word := strings_TrimSpace (strings_ToLower line) in
                if String.eqb word EmptyString then d
                else {| set := <[word := true]> (set d);
                        words := words d ++ [word] |}) d lines) !! w
  = if existsb (String.eqb w)
               (List.filter (fun w => negb (String.eqb w EmptyString))
                            (map normalized_line lines))
    then Some true else set d !! w.
Proof.
  unfold normalized_line.
  revert d. induction lines as [|line lines IH]; intros d.
  - reflexivity.
  - cbn [foldl map List.filter]. rewrite IH.
    destruct (String.eqb (strings_TrimSpace (strings_ToLower line)) EmptyString);
      cbn [negb existsb set]; [reflexivity|].
    destruct (existsb _ _); [by rewrite orb_true_r|]. rewrite orb_false_r.
    destruct (String.eqb_spec w (strings_TrimSpace (strings_ToLower line))) as [->|Hne].
    + rewrite lookup_insert_eq. reflexivity.
    + rewrite lookup_insert_ne by congruence. reflexivity.
Qed.

(** X4: the dictionary built by [loadDictionary] holds, in file order, the
    lower-cased and trimmed lines of the data that are not empty, and
    [contains] answers true exactly for these words. *)
Theorem loadDictionary_contains (data : string) (w : string) :
  words (loadDictionary data)
    = List.filter (fun w => negb (String.eqb w EmptyString))
                  (map normalized_line (split_lines data)) /\
  (contains (loadDictionary data) w = true <-> In w (words (loadDictionary data))) /\
  (contains (loadDictionary data) w = true <->
   w <> EmptyString /\
   exists line, In line (split_lines data) /\ w = normalized_line line).
Proof.
  assert (Hw : words (loadDictionary data)
               = List.filter (fun w => negb (String.eqb w EmptyString))
                             (map normalized_line (split_lines data))).
  { unfold loadDictionary. by rewrite load_fold_words. }
  assert (Hc : contains (loadDictionary data) w = true <->
               In w (words (loadDictionary data))).
  { rewrite Hw. unfold contains, loadDictionary. rewrite load_fold_set.
    destruct (existsb _ _) eqn:E; cbn.
    - split; [intros _|reflexivity].
      apply existsb_exists in E as (x & Hx & Heq).
      apply String.eqb_eq in Heq. by subst.
    - rewrite lookup_empty. cbn. split; [discriminate|]. intros Hin.
      assert (existsb (String.eqb w)
                (List.filter (fun w => negb (String.eqb w EmptyString))
                             (map normalized_line (split_lines data))) = true).
      { apply existsb_exists. exists w. split; [exact Hin|apply String.eqb_refl]. }
      congruence. }
  split; [exact Hw|]. split; [exact Hc|].
  rewrite Hc, Hw, filter_In, in_map_iff, negb_true_iff, String.eqb_neq.
  split.
  - intros [(line & <- & Hin) Hne]. split; [exact Hne|]. eauto.
  - intros [Hne (line & Hin & ->)]. split; [eauto|exact Hne].
Qed.

End DictionaryLoad.

(** ** Strings of ASCII characters *)

Lemma byte_val_range a : 0 <= byte_val a < 256.
Proof.
  unfold byte_val. pose proof (N_ascii_bounded a). lia.
Qed.

Lemma of_bytes_bytes s : of_bytes (bytes s) = s.
Proof.
  unfold of_bytes, bytes. rewrite map_map.
  rewrite <- (string_of_list_ascii_of_string s) at 2. f_equal.
  rewrite <- (map_id (list_ascii_of_string s)) at 2.
  apply map_ext. intros a. unfold byte_of, byte_val.
  rewrite N2Z.id. apply ascii_N_embedding.
Qed.

Lemma bytes_of_bytes bs :
  Forall (fun b => 0 <= b < 256) bs -> bytes (of_bytes bs) = bs.
Proof.
  intros Hbs. unfold of_bytes, bytes.
  rewrite list_ascii_of_string_of_list_ascii, map_map.
  induction Hbs as [|b bs Hb _ IH]; [reflexivity|].
  cbn [map]. rewrite IH. f_equal. unfold byte_of, byte_val.
  rewrite N_ascii_embedding by lia. lia.
Qed.

Lemma bytes_range s : Forall (fun b => 0 <= b < 256) (bytes s).
Proof.
  unfold bytes. apply Forall_forall. intros b Hb.
  apply list_elem_of_In, in_map_iff in Hb as (a & <- & _). apply byte_val_range.
Qed.

Lemma decode_ascii bs : Forall (fun b => b < 0x80) bs -> decode bs = bs.
Proof.
  induction 1 as [|b bs Hb _ IH]; [reflexivity|].
  cbn [decode]. destruct (Z.ltb_spec b 0x80); [by rewrite IH|lia].
Qed.

Lemma encode_ascii rs :
  Forall (fun r => 0 <= r < 0x80) rs -> concat (map encode_rune rs) = rs.
Proof.
  induction 1 as [|r rs Hr _ IH]; [reflexivity|].
  cbn [map concat]. rewrite IH. unfold encode_rune, between.
  destruct (Z.leb_spec 0 r); [|lia]. destruct (Z.leb_spec r 0x7F); [|lia].
  reflexivity.
Qed.

Lemma leetMap_entries r reps :
  leetMap !! r = Some reps ->
  ~ (97 <= r <= 122) /\ 0 <= r < 0x80 /\ Forall (fun x => 97 <= x <= 122) reps.
Proof.
  intros Hl. unfold leetMap in Hl.
  apply elem_of_list_to_map_2 in Hl.
  repeat (apply elem_of_cons in Hl as [Hl|Hl];
          [injection Hl as -> ->; vm_compute;
           split; [intros [? ?]; congruence|];
           split; [split; congruence|];
           repeat constructor; congruence|]).
  by apply elem_of_nil in Hl.
Qed.

Lemma leetMap_letter x : 97 <= x <= 122 -> leetMap !! x = None.
Proof.
  intros Hx. destruct (leetMap !! x) as [reps|] eqn:E; [|reflexivity].
  apply leetMap_entries in E as [Hn _]. contradiction.
Qed.

Lemma canonical_cases r :
  (leetMap !! r = None /\ canonical r = r) \/
  (is_Some (leetMap !! r) /\ 0 <= r < 0x80 /\ 97 <= canonical r <= 122).
Proof.
  destruct (leetMap !! r) as [reps|] eqn:E.
  - right. pose proof (leetMap_nonempty _ _ E) as Hne.
    pose proof (leetMap_entries _ _ E) as (_ & Hr & Hall).
    destruct reps as [|x reps]; [done|].
    apply Forall_cons in Hall as [Hx _].
    assert (Hc : canonical r = x) by (unfold canonical; by rewrite E).
    rewrite Hc. eauto.
  - left. split; [reflexivity|]. unfold canonical. by rewrite E.
Qed.

Lemma canonical_idempotent r : canonical (canonical r) = canonical r.
Proof.
  destruct (canonical_cases r) as [[_ Hc]|(_ & _ & Hc)].
  - rewrite Hc. exact Hc.
  - unfold canonical at 1. by rewrite leetMap_letter.
Qed.

Lemma canonical_ascii r : 0 <= r < 0x80 -> 0 <= canonical r < 0x80.
Proof.
  intros Hr. destruct (canonical_cases r) as [[_ Hc]|(_ & _ & Hc)]; lia.
Qed.

Lemma is_ascii_range s :
  is_ascii s -> Forall (fun b => 0 <= b < 0x80) (bytes s).
Proof.
  unfold is_ascii. intros Ha. pose proof (bytes_range s) as Hb.
  rewrite Forall_forall in Ha, Hb. apply Forall_forall. intros b Hin.
  specialize (Ha b Hin). specialize (Hb b Hin). lia.
Qed.

Lemma Forall_below_256 bs :
  Forall (fun b => 0 <= b < 0x80) bs -> Forall (fun b => 0 <= b < 256) bs.
Proof.
  intros Hbs. eapply Forall_impl; [exact Hbs|]. intros b Hb. cbn in Hb. lia.
Qed.

Lemma leetNormalize_ascii_bytes s :
  is_ascii s -> bytes (leetNormalize s) = map canonical (bytes s).
Proof.
  intros Ha. unfold leetNormalize, of_runes, runes.
  rewrite (decode_ascii _ Ha).
  apply is_ascii_range in Ha.
  assert (Hc : Forall (fun b => 0 <= b < 0x80) (map canonical (bytes s))).
  { apply Forall_fmap. eapply Forall_impl; [exact Ha|].
    intros b Hb. by apply canonical_ascii. }
  rewrite (encode_ascii _ Hc). apply bytes_of_bytes, Forall_below_256, Hc.
Qed.

(** X5: on a string of ASCII characters [leetNormalize] works byte by
    byte: the result has the canonical letter at every position, the same
    length, and only ASCII characters; normalising it again changes
    nothing; and a string in which no character is a key of [leetMap] is
    returned unchanged. *)
Theorem leetNormalize_ascii (s : string) :
  is_ascii s ->
  bytes (leetNormalize s) = map canonical (bytes s) /\
  len (leetNormalize s) = len s /\
  is_ascii (leetNormalize s) /\
  leetNormalize (leetNormalize s) = leetNormalize s /\
  (Forall (fun b : rune => leetMap !! b = None) (bytes s) -> leetNormalize s = s).
Proof.
  intros Ha. pose proof (leetNormalize_ascii_bytes s Ha) as Hb.
  assert (Hasc : is_ascii (leetNormalize s)).
  { unfold is_ascii. rewrite Hb. apply Forall_fmap.
    eapply Forall_impl; [apply (is_ascii_range _ Ha)|].
    intros b Hr. cbn. pose proof (canonical_ascii b Hr). lia. }
  assert (Hinj : forall s1 s2, bytes s1 = bytes s2 -> s1 = s2).
  { intros s1 s2 Heq. rewrite <- (of_bytes_bytes s1), <- (of_bytes_bytes s2).
    by rewrite Heq. }
  split; [exact Hb|]. split; [|split; [exact Hasc|split]].
  - rewrite !len_bytes, Hb, length_map. reflexivity.
  - apply Hinj. rewrite (leetNormalize_ascii_bytes _ Hasc), Hb, map_map.
    apply map_ext. intros b. apply canonical_idempotent.
  - intros Hnone. apply Hinj. rewrite Hb.
    transitivity (map (fun b : Z => b) (bytes s)); [|apply map_id].
    apply map_ext_in. intros b Hin. rewrite Forall_forall in Hnone.
    assert (E : leetMap !! (b : rune) = None)
      by (apply Hnone; by apply list_elem_of_In).
    unfold canonical. by rewrite E.
Qed.

(** The string ["p@ssw0rd"] is ASCII. *)
Lemma leetNormalize_ascii_witness :
  bytes (leetNormalize "p@ssw0rd") = map canonical (bytes "p@ssw0rd") /\
  len (leetNormalize "p@ssw0rd") = len "p@ssw0rd" /\
  is_ascii (leetNormalize "p@ssw0rd") /\
  leetNormalize (leetNormalize "p@ssw0rd") = leetNormalize "p@ssw0rd" /\
  (Forall (fun b : rune => leetMap !! b = None) (bytes "p@ssw0rd") ->
   leetNormalize "p@ssw0rd" = "p@ssw0rd"%string).
Proof.
  apply (leetNormalize_ascii "p@ssw0rd").
  unfold is_ascii. vm_compute. repeat constructor.
Defined.

Lemma reverseString_ascii_bytes (t : string) :
  is_ascii t -> bytes (reverseString t) = rev (bytes t).
Proof.
  intros Ht. unfold reverseString, of_runes, runes.
  rewrite (decode_ascii _ Ht). apply is_ascii_range in Ht.
  assert (Hr : Forall (fun b => 0 <= b < 0x80) (rev (bytes t))).
  { apply Forall_forall. intros b Hin. rewrite Forall_forall in Ht.
    apply Ht. by apply list_elem_of_In, in_rev, list_elem_of_In in Hin. }
  change (@rev rune (bytes t)) with (@rev Z (bytes t)).
  rewrite (encode_ascii _ Hr). apply bytes_of_bytes, Forall_below_256, Hr.
Qed.



(** ** Sequential characters *)

Lemma chain_at_app l l' i k : chain_at l i k -> chain_at (l ++ l') i k.
Proof.
  intros [Hlen Hp]. split; [rewrite length_app; lia|].
  intros j Hj. destruct (Hp j Hj) as (a & b & Ha & Hb & Hab).
  exists a, b. repeat split; [by apply lookup_app_l_Some..|exact Hab].
Qed.

Lemma chain_at_restrict l l' i k :
  chain_at (l ++ l') i k -> (i + k <= length l)%nat -> chain_at l i k.
Proof.
  intros [_ Hp] Hfit. split; [exact Hfit|].
  intros j Hj. destruct (Hp j Hj) as (a & b & Ha & Hb & Hab).
  rewrite lookup_app_l in Ha by lia. rewrite lookup_app_l in Hb by lia.
  eauto.
Qed.

Lemma chain_at_sub l i k i' k' :
  chain_at l i k -> (i <= i')%nat -> (i' + k' <= i + k)%nat -> chain_at l i' k'.
Proof.
  intros [Hlen Hp] Hi Hk. split; [lia|].
  intros j Hj. destruct (Hp (i' - i + j)%nat ltac:(lia)) as (a & b & Ha & Hb & Hab).
  exists a, b.
  replace (i + (i' - i + j))%nat with (i' + j)%nat in Ha by lia.
  replace (i + S (i' - i + j))%nat with (i' + S j)%nat in Hb by lia.
  eauto.
Qed.

Lemma chain_at_snoc l prev b i k :
  l !! (length l - 1)%nat = Some prev -> (1 <= k)%nat ->
  (i + k = length l)%nat ->
  chain_at l i k -> adjacent prev b -> chain_at (l ++ [b]) i (S k).
Proof.
  intros Hlast Hk Hend [_ Hp] Hadj. split; [rewrite length_app; cbn; lia|].
  intros j Hj. destruct (decide (S j < k)%nat) as [Hlt|Hge].
  - destruct (Hp j Hlt) as (a & c & Ha & Hc & Hac).
    exists a, c. repeat split; [by apply lookup_app_l_Some..|exact Hac].
  - exists prev, b. repeat split; [| |exact Hadj].
    + apply lookup_app_l_Some. by replace (i + j)%nat with (length l - 1)%nat by lia.
    + replace (i + S j)%nat with (length l) by lia. by apply list_lookup_middle.
Qed.

Lemma chain_last_pair l prev b :
  l !! (length l - 1)%nat = Some prev -> (1 <= length l)%nat ->
  chain_at (l ++ [b]) (length (l ++ [b]) - 2) 2 -> adjacent prev b.
Proof.
  intros Hlast Hlen [_ Hp].
  destruct (Hp 0%nat ltac:(lia)) as (a & c & Ha & Hc & Hac).
  rewrite length_app in Ha, Hc. cbn in Ha, Hc.
  replace (length l + 1 - 2 + 0)%nat with (length l - 1)%nat in Ha by lia.
  replace (length l + 1 - 2 + 1)%nat with (length l) in Hc by lia.
  rewrite lookup_app_l in Ha by lia.
  rewrite list_lookup_middle in Hc by reflexivity.
  congruence.
Qed.

Lemma chain_end_bound l c k i :
  ~ chain_at l (length l - S c) (S c) ->
  chain_at l i k -> (i + k = length l)%nat -> (k <= c)%nat.
Proof.
  intros Hstop Hch Hend.
  destruct (decide (k <= c)%nat) as [|Hgt]; [done|].
  exfalso. apply Hstop. eapply chain_at_sub; [exact Hch|lia|lia].
Qed.

Lemma longest_chain_snoc l b c mx :
  (c <= mx)%nat -> (forall k, has_chain l k -> (k <= mx)%nat) ->
  ~ chain_at (l ++ [b]) (length (l ++ [b]) - S c) (S c) ->
  forall k, has_chain (l ++ [b]) k -> (k <= mx)%nat.
Proof.
  intros Hc Hmax Hstop k [i Hch].
  destruct (decide (i + k <= length l)%nat) as [Hfit|Hend].
  - apply Hmax. exists i. by eapply chain_at_restrict.
  - pose proof Hch as [Hlen _]. rewrite length_app in Hlen. cbn in Hlen.
    assert (Hk : (k <= c)%nat).
    { eapply chain_end_bound; [exact Hstop|exact Hch|].
      rewrite length_app. cbn. lia. }
    lia.
Qed.

Lemma chain_invariant_start b0 : chain_invariant [b0] b0 1 1.
Proof.
  split; [lia|]. split; [cbn; lia|]. split; [reflexivity|].
  assert (Hone : chain_at [b0] 0 1).
  { split; [cbn; lia|]. intros j Hj. lia. }
  split; [split|split].
  - by exists 0%nat.
  - intros k [i [Hlen _]]. cbn in Hlen. lia.
  - exact Hone.
  - intros [Hlen _]. cbn in Hlen. lia.
Qed.

Lemma chain_invariant_next l prev b cur mx :
  adjacent prev b -> chain_invariant l prev cur mx ->
  chain_invariant (l ++ [b]) b (S cur) (Nat.max mx (S cur)).
Proof.
  intros Hadj (Hc & Hlen & Hlast & Hlong & Htrail & Hstop).
  assert (Hn : length (l ++ [b]) = S (length l)) by (rewrite length_app; cbn; lia).
  assert (Htrail' : chain_at (l ++ [b]) (length (l ++ [b]) - S cur) (S cur)).
  { rewrite Hn. replace (S (length l) - S cur)%nat with (length l - cur)%nat by lia.
    eapply chain_at_snoc; [exact Hlast|lia|lia|exact Htrail|exact Hadj]. }
  assert (Hstop' : ~ chain_at (l ++ [b]) (length (l ++ [b]) - S (S cur)) (S (S cur))).
  { intros Hch. pose proof Hch as [Hfit _]. rewrite Hn in *.
    apply Hstop. apply (chain_at_restrict l [b]); [|lia].
    eapply chain_at_sub; [exact Hch|lia|lia]. }
  split; [lia|]. split; [lia|]. split.
  { rewrite Hn. replace (S (length l) - 1)%nat with (length l) by lia.
    by apply list_lookup_middle. }
  split; [split|split; [exact Htrail'|exact Hstop']].
  - destruct (Nat.max_spec mx (S cur)) as [[_ ->]|[_ ->]].
    + eexists. exact Htrail'.
    + destruct Hlong as [[i Hi] _]. exists i. by apply chain_at_app.
  - intros k Hk.
    apply (longest_chain_snoc l b (S cur) (Nat.max mx (S cur)));
      [lia| |exact Hstop'|exact Hk].
    intros k' Hk'. destruct Hlong as [_ Hmax]. apply Hmax in Hk'. lia.
Qed.

Lemma chain_invariant_break l prev b cur mx :
  ~ adjacent prev b -> chain_invariant l prev cur mx ->
  chain_invariant (l ++ [b]) b 1 mx.
Proof.
  intros Hadj (Hc & Hlen & Hlast & Hlong & Htrail & Hstop).
  assert (Hn : length (l ++ [b]) = S (length l)) by (rewrite length_app; cbn; lia).
  assert (Hstop' : ~ chain_at (l ++ [b]) (length (l ++ [b]) - 2) 2).
  { intros Hch. apply Hadj. eapply chain_last_pair; [exact Hlast|lia|exact Hch]. }
  split; [lia|]. split; [lia|]. split.
  { rewrite Hn. replace (S (length l) - 1)%nat with (length l) by lia.
    by apply list_lookup_middle. }
  split; [split|split; [|exact Hstop']].
  - destruct Hlong as [[i Hi] _]. exists i. by apply chain_at_app.
  - apply (longest_chain_snoc l b 1 mx); [lia|apply Hlong|exact Hstop'].
  - split; [lia|]. intros j Hj. lia.
Qed.

Lemma adjacent_test a b :
  ((b - a =? 1) || (b - a =? -1)) = true <-> adjacent a b.
Proof.
  unfold adjacent. rewrite orb_true_iff, !Z.eqb_eq. reflexivity.
Qed.

Lemma sequence_loop_longest rest l prev cur mx :
  chain_invariant l prev cur mx ->
  exists run, longest_chain (l ++ rest) run /\
              sequence_loop prev rest (Z.of_nat cur) (Z.of_nat mx) = Z.of_nat run.
Proof.
  revert l prev cur mx. induction rest as [|b rest IH]; intros l prev cur mx Hinv.
  - exists mx. rewrite app_nil_r. split; [apply Hinv|reflexivity].
  - cbn [sequence_loop]. cbv zeta.
    destruct ((b - prev =? 1) || (b - prev =? -1)) eqn:E.
    + apply adjacent_test in E. apply (chain_invariant_next _ _ b) in Hinv; [|exact E].
      destruct (IH _ _ _ _ Hinv) as (run & Hrun & Heq).
      exists run. rewrite <- app_assoc in Hrun. split; [exact Hrun|].
      rewrite <- Heq. f_equal; [lia|].
      destruct (Z.ltb_spec (Z.of_nat mx) (Z.of_nat cur + 1)); lia.
    + assert (Hn : ~ adjacent prev b).
      { intros Ha. apply adjacent_test in Ha. congruence. }
      apply (chain_invariant_break _ _ b) in Hinv; [|exact Hn].
      destruct (IH _ _ _ _ Hinv) as (run & Hrun & Heq).
      exists run. rewrite <- app_assoc in Hrun. split; [exact Hrun|exact Heq].
Qed.

Lemma maxSeq_of_longest bs :
  bs <> [] ->
  exists run, longest_chain bs run /\ maxSeq_of bs = Z.of_nat run.
Proof.
  destruct bs as [|b0 rest]; [done|]. intros _.
  apply (sequence_loop_longest rest [b0] b0 1 1), chain_invariant_start.
Qed.

(** X7: [penaltySequentialChars] gives no penalty to a password of fewer
    than three bytes.  Otherwise let [run] be the length of the longest
    stretch of bytes in which each differs from the one before by exactly
    one, upwards or downwards, the direction being free to change: the
    penalty has factor 0.3 for [run >= 5], 0.5 for [run = 4], 0.7 for
    [run = 3], and there is none for a shorter run. *)
Theorem sequential_chars_factor (lower : string) :
  (len lower < 3 -> penaltySequentialChars lower = None) /\
  (3 <= len lower ->
   exists run : nat,
     longest_chain (bytes lower) run /\
     match penaltySequentialChars lower with
     | Some p =>
       Rule p = "sequential_chars"%string /\
       ((5 <= run)%nat /\ Factor p = 0.3%float \/
        run = 4%nat /\ Factor p = 0.5%float \/
        run = 3%nat /\ Factor p = 0.7%float)
     | None => (run < 3)%nat
     end).
Proof.
  split.
  - intros Hlt. unfold penaltySequentialChars.
    destruct (Z.ltb_spec (len lower) 3); [reflexivity|lia].
  - intros Hge.
    assert (Hne : bytes lower <> []).
    { intros Hnil. rewrite len_bytes, Hnil in Hge. cbn in Hge. lia. }
    destruct (maxSeq_of_longest _ Hne) as (run & Hrun & Heq).
    exists run. split; [exact Hrun|].
    unfold penaltySequentialChars.
    destruct (Z.ltb_spec (len lower) 3) as [|_]; [lia|].
    rewrite Heq. cbv zeta.
    destruct (Z.leb_spec 5 (Z.of_nat run)); [cbn; split; [reflexivity|left; split; [lia|reflexivity]]|].
    destruct (Z.leb_spec 4 (Z.of_nat run));
      [cbn; split; [reflexivity|right; left; split; [lia|reflexivity]]|].
    destruct (Z.leb_spec 3 (Z.of_nat run));
      [cbn; split; [reflexivity|right; right; split; [lia|reflexivity]]|].
    lia.
Qed.

(** ** Common substrings and keyboard rows *)

Lemma common_prefix_len_nonneg x y : 0 <= common_prefix_len x y.
Proof.
  revert y. induction x as [|c x IH]; intros [|d y]; cbn; try lia.
  destruct (c =? d); [specialize (IH y); lia|lia].
Qed.

Lemma common_at_nil_l b i j k : common_at [] b i j k -> k = 0%nat.
Proof.
  intros Hc. destruct k; [reflexivity|].
  destruct (Hc 0%nat ltac:(lia)) as (c & Ha & _). by rewrite lookup_nil in Ha.
Qed.

Lemma common_at_nil_r a i j k : common_at a [] i j k -> k = 0%nat.
Proof.
  intros Hc. destruct k; [reflexivity|].
  destruct (Hc 0%nat ltac:(lia)) as (c & _ & Hb). by rewrite lookup_nil in Hb.
Qed.

Lemma common_at_cons c d x y k :
  common_at (c :: x) (d :: y) 0 0 (S k) <-> c = d /\ common_at x y 0 0 k.
Proof.
  split.
  - intros Hc. split.
    + destruct (Hc 0%nat ltac:(lia)) as (e & Ha & Hb). cbn in Ha, Hb. congruence.
    + intros t Ht. destruct (Hc (S t) ltac:(lia)) as (e & Ha & Hb).
      exists e. cbn in Ha, Hb. by split.
  - intros [-> Hc] [|t] Ht.
    + exists d. by split.
    + destruct (Hc t ltac:(lia)) as (e & Ha & Hb). exists e. by split.
Qed.

Lemma common_prefix_len_spec x y k :
  Z.of_nat k <= common_prefix_len x y <-> common_at x y 0 0 k.
Proof.
  revert y k. induction x as [|c x IH]; intros y k.
  - cbn. split.
    + intros Hk. assert (k = 0%nat) as -> by lia. intros t Ht. lia.
    + intros Hc. apply common_at_nil_l in Hc. lia.
  - destruct y as [|d y].
    + cbn. split.
      * intros Hk. assert (k = 0%nat) as -> by lia. intros t Ht. lia.
      * intros Hc. apply common_at_nil_r in Hc. lia.
    + destruct k as [|k].
      * split; [intros _ t Ht; lia|intros _].
        pose proof (common_prefix_len_nonneg (c :: x) (d :: y)). lia.
      * rewrite common_at_cons. cbn [common_prefix_len].
        destruct (Z.eqb_spec c d) as [->|Hne].
        -- rewrite <- IH. split; [intros Hk; split; [reflexivity|lia]|intros [_ Hk]; lia].
        -- split; [lia|intros [Heq _]; contradiction].
Qed.

Lemma common_at_drop a b i j k :
  common_at a b i j k <-> common_at (drop i a) (drop j b) 0 0 k.
Proof.
  unfold common_at. split; intros Hc t Ht; destruct (Hc t Ht) as (c & Ha & Hb);
    exists c; rewrite ?lookup_drop in *; cbn in *; by split.
Qed.

Lemma suffixes_spec l s :
  In s (suffixes l) <-> exists i, (i < length l)%nat /\ s = drop i l.
Proof.
  revert s. induction l as [|x l IH]; intros s.
  - cbn. split; [done|]. intros (i & Hi & _). lia.
  - cbn [suffixes In]. rewrite IH. split.
    + intros [<-|(i & Hi & ->)].
      * exists 0%nat. split; [cbn; lia|reflexivity].
      * exists (S i). split; [cbn; lia|reflexivity].
    + intros ([|i] & Hi & ->).
      * by left.
      * right. exists i. split; [cbn in Hi; lia|reflexivity].
Qed.

(** A loop that keeps the largest value seen. *)
Lemma fold_max {A} (f : A -> Z) (xs : list A) (m : Z) :
  let r := foldl (fun m x => if m <? f x then f x else m) m xs in
  m <= r /\ (forall x, In x xs -> f x <= r) /\
  (r = m \/ exists x, In x xs /\ r = f x).
Proof.
  revert m. induction xs as [|x xs IH]; intros m; cbn [foldl].
  - cbv zeta. split; [lia|]. split; [intros x []|by left].
  - specialize (IH (if m <? f x then f x else m)). cbv zeta in *.
    destruct IH as (Hge & Hall & Hatt).
    destruct (Z.ltb_spec m (f x)).
    + split; [lia|]. split.
      * intros y [<-|Hy]; [lia|by apply Hall].
      * right. destruct Hatt as [->|(y & Hy & ->)]; [exists x|exists y]; split; auto;
          [by left|by right].
    + split; [lia|]. split.
      * intros y [<-|Hy]; [lia|by apply Hall].
      * destruct Hatt as [->|(y & Hy & ->)]; [by left|].
        right. exists y. split; [by right|reflexivity].
Qed.

Lemma fold_max2 {A B} (f : A -> B -> Z) (xs : list A) (ys : list B) (m : Z) :
  let r := foldl (fun m x => foldl (fun m y => if m <? f x y then f x y else m) m ys)
                 m xs in
  m <= r /\ (forall x y, In x xs -> In y ys -> f x y <= r) /\
  (r = m \/ exists x y, In x xs /\ In y ys /\ r = f x y).
Proof.
  revert m. induction xs as [|x xs IH]; intros m; cbn [foldl].
  - cbv zeta. split; [lia|]. split; [intros x y []|by left].
  - pose proof (fold_max (f x) ys m) as (Hge1 & Hall1 & Hatt1). cbv zeta in *.
    set (m1 := foldl (fun m y => if m <? f x y then f x y else m) m ys) in *.
    destruct (IH m1) as (Hge & Hall & Hatt).
    split; [lia|]. split.
    + intros x' y [<-|Hx] Hy; [specialize (Hall1 y Hy); lia|by apply Hall].
    + destruct Hatt as [->|(x' & y & Hx & Hy & ->)].
      * destruct Hatt1 as [->|(y & Hy & ->)]; [by left|].
        right. exists x, y. repeat split; [by left|done].
      * right. exists x', y. repeat split; [by right|done].
Qed.

Lemma has_common_zero a b : has_common a b 0.
Proof. exists 0%nat, 0%nat. intros t Ht. lia. Qed.

Lemma has_common_sym a b k : has_common a b k -> has_common b a k.
Proof.
  intros (i & j & Hc). exists j, i. intros t Ht.
  destruct (Hc t Ht) as (c & Ha & Hb). exists c. by split.
Qed.

Lemma longest_common_unique a b k1 k2 :
  longest_common a b k1 -> longest_common a b k2 -> k1 = k2.
Proof.
  intros [H1 M1] [H2 M2]. apply M2 in H1. apply M1 in H2. lia.
Qed.

Lemma longestCommonSubstringLen_longest a b :
  exists m, longest_common (bytes a) (bytes b) m /\
            longestCommonSubstringLen a b = Z.of_nat m.
Proof.
  unfold longestCommonSubstringLen. rewrite !len_bytes.
  destruct (Z.eqb_spec (Z.of_nat (length (bytes a))) 0) as [Ha|Ha].
  { exists 0%nat. split; [split; [apply has_common_zero|]|reflexivity].
    intros k (i & j & Hc). destruct (bytes a); [|cbn in Ha; lia].
    apply common_at_nil_l in Hc. lia. }
  destruct (Z.eqb_spec (Z.of_nat (length (bytes b))) 0) as [Hb|Hb].
  { exists 0%nat. split; [split; [apply has_common_zero|]|reflexivity].
    intros k (i & j & Hc). destruct (bytes b); [|cbn in Hb; lia].
    apply common_at_nil_r in Hc. lia. }
  cbn [orb].
  pose proof (fold_max2 common_prefix_len (suffixes (bytes a)) (suffixes (bytes b)) 0)
    as (Hge & Hall & Hatt).
  cbv zeta in *.
  set (r := foldl _ 0 (suffixes (bytes a))) in *.
  exists (Z.to_nat r). split; [split|lia].
  - destruct Hatt as [->|(x & y & Hx & Hy & Hr)]; [apply has_common_zero|].
    apply suffixes_spec in Hx as (i & Hi & ->).
    apply suffixes_spec in Hy as (j & Hj & ->).
    exists i, j. apply common_at_drop, common_prefix_len_spec. lia.
  - intros k (i & j & Hc).
    destruct k as [|k]; [lia|].
    destruct (Hc 0%nat ltac:(lia)) as (c & Hia & Hjb).
    apply lookup_lt_Some in Hia, Hjb.
    apply common_at_drop, common_prefix_len_spec in Hc.
    assert (Hle : common_prefix_len (drop i (bytes a)) (drop j (bytes b)) <= r).
    { apply Hall; apply suffixes_spec; eexists; (split; [|reflexivity]); lia. }
    lia.
Qed.

(** X8: [longestCommonSubstringLen(a, b)] is the length of the longest run
    of bytes that occurs in both strings: some run of that length occurs
    in both, no longer one does, it is 0 when either string is empty, and
    the order of the arguments does not matter. *)
Theorem longestCommonSubstringLen_spec (a b : string) :
  (exists m, longest_common (bytes a) (bytes b) m /\
             longestCommonSubstringLen a b = Z.of_nat m) /\
  longestCommonSubstringLen a b = longestCommonSubstringLen b a /\
  longestCommonSubstringLen a EmptyString = 0 /\
  longestCommonSubstringLen EmptyString b = 0.
Proof.
  split; [apply longestCommonSubstringLen_longest|]. split.
  - destruct (longestCommonSubstringLen_longest a b) as (m & [Hm Hmax] & ->).
    destruct (longestCommonSubstringLen_longest b a) as (m' & [Hm' Hmax'] & ->).
    apply has_common_sym in Hm, Hm'. apply Hmax' in Hm. apply Hmax in Hm'. lia.
  - split; [|reflexivity].
    unfold longestCommonSubstringLen. change (len EmptyString) with 0.
    by rewrite orb_true_r.
Qed.

Lemma keyboardRows_reversed row :
  In row keyboardRows -> bytes (reverseString row) = rev (bytes row).
Proof.
  intros Hin. apply reverseString_ascii_bytes.
  assert (Hall : Forall is_ascii keyboardRows).
  { unfold is_ascii, keyboardRows. repeat constructor; vm_compute; repeat constructor. }
  rewrite Forall_forall in Hall. by apply Hall, list_elem_of_In.
Qed.

Lemma keyboard_fold lower (rows : list string) (m : Z) :
  let r := foldl (fun bestMatch row =>
                    let match_ := longestCommonSubstringLen lower row in
                    let bestMatch := if bestMatch <? match_ then match_ else bestMatch in
                    let rev := reverseString row in
                    let match_ := longestCommonSubstringLen lower rev in
                    if bestMatch <? match_ then match_ else bestMatch)
                 m rows in
  m <= r /\
  (forall row, In row rows ->
     longestCommonSubstringLen lower row <= r /\
     longestCommonSubstringLen lower (reverseString row) <= r) /\
  (r = m \/ exists row, In row rows /\
     (r = longestCommonSubstringLen lower row \/
      r = longestCommonSubstringLen lower (reverseString row))).
Proof.
  revert m. induction rows as [|row rows IH]; intros m; cbn [foldl].
  - cbv zeta. split; [lia|]. split; [intros row []|by left].
  - cbv zeta in *.
    set (m1 := longestCommonSubstringLen lower row) in *.
    set (m2 := longestCommonSubstringLen lower (reverseString row)) in *.
    set (b1 := if m <? m1 then m1 else m).
    set (b2 := if b1 <? m2 then m2 else b1).
    assert (Hb : m <= b2 /\ m1 <= b2 /\ m2 <= b2 /\ (b2 = m \/ b2 = m1 \/ b2 = m2)).
    { subst b1 b2. destruct (Z.ltb_spec m m1);
        match goal with |- context [?x <? m2] => destruct (Z.ltb_spec x m2) end; lia. }
    destruct (IH b2) as (Hge & Hall & Hatt).
    split; [lia|]. split.
    + intros row' [<-|Hin]; [fold m1 m2; lia|by apply Hall].
    + destruct Hatt as [->|(row' & Hin & Hr)].
      * destruct Hb as (_ & _ & _ & [->|[->| ->]]); [by left|right..];
          exists row; (split; [by left|]); [by left|by right].
      * right. exists row'. split; [by right|exact Hr].
Qed.

(** X9: let [best] be the largest number of contiguous bytes that the
    password shares with one of the rows of [keyboardRows] or with a row
    read backwards.  [penaltyKeyboardPatterns] gives a penalty with factor
    0.2 for [best >= 6], 0.4 for [best = 5], 0.6 for [best = 4], and none
    for a smaller [best]. *)
Theorem keyboard_pattern_factor (lower : string) :
  exists best : nat,
    (on_keyboard (bytes lower) best /\
     forall k, on_keyboard (bytes lower) k -> (k <= best)%nat) /\
    match penaltyKeyboardPatterns lower with
    | Some p =>
      Rule p = "keyboard_pattern"%string /\
      ((6 <= best)%nat /\ Factor p = 0.2%float \/
       best = 5%nat /\ Factor p = 0.4%float \/
       best = 4%nat /\ Factor p = 0.6%float)
    | None => (best < 4)%nat
    end.
Proof.
  unfold penaltyKeyboardPatterns.
  pose proof (keyboard_fold lower keyboardRows 0) as (Hge & Hall & Hatt).
  cbv zeta in *.
  set (r := foldl _ 0 keyboardRows) in *. clearbody r.
  exists (Z.to_nat r). split; [split|].
  - destruct Hatt as [->|(row & Hin & Hr)].
    + exists "qwertyuiop"%string. split; [by left|]. left. apply has_common_zero.
    + exists row. split; [exact Hin|].
      destruct Hr as [Hr|Hr]; [left|right].
      * destruct (longestCommonSubstringLen_longest lower row) as (m & [Hm _] & Heq).
        replace (Z.to_nat r) with m by lia. exact Hm.
      * destruct (longestCommonSubstringLen_longest lower (reverseString row))
          as (m & [Hm _] & Heq).
        rewrite (keyboardRows_reversed row Hin) in Hm.
        replace (Z.to_nat r) with m by lia. exact Hm.
  - intros k (row & Hin & Hk). destruct (Hall row Hin) as [H1 H2].
    destruct Hk as [Hk|Hk].
    + destruct (longestCommonSubstringLen_longest lower row) as (m & [_ Hmax] & Heq).
      apply Hmax in Hk. lia.
    + destruct (longestCommonSubstringLen_longest lower (reverseString row))
        as (m & [_ Hmax] & Heq).
      rewrite (keyboardRows_reversed row Hin) in Hmax.
      apply Hmax in Hk. lia.
  - destruct (Z.leb_spec 6 r);
      [cbn [Rule Factor]; split; [reflexivity|left; split; [lia|reflexivity]]|].
    destruct (Z.leb_spec 5 r);
      [cbn [Rule Factor]; split; [reflexivity|right; left; split; [lia|reflexivity]]|].
    destruct (Z.leb_spec 4 r);
      [cbn [Rule Factor]; split; [reflexivity|right; right; split; [lia|reflexivity]]|].
    lia.
Qed.

(** ** What a generated candidate contains *)

Lemma done_inj {A} (a b : A) (k k' : nat) :
  Done (a, k) = Done (b, k') -> a = b /\ k = k'.
Proof. intros [= -> ->]. by split. Qed.






Lemma index_bytes_in s n (tp : tape) k :
  0 <= n < len s ->
  exists c, In c (bytes s) /\ index (bytes s) n tp k = Done (c, k).
Proof.
  intros Hn. destruct (index_in_range (bytes s) n tp k) as (c & Hc & Heq).
  { rewrite <- len_bytes. lia. }
  exists c. split; [|exact Heq].
  apply list_elem_of_In. eapply list_elem_of_lookup_2. exact Hc.
Qed.









(** ** The generator when every length is too short *)

Lemma index_out_of_range {A} (l : list A) i (tp : tape) k :
  Z.of_nat (length l) <= i -> index l i tp k = Panic "index out of range".
Proof.
  intros Hi. unfold index. destruct (Z.ltb_spec i 0); [reflexivity|].
  rewrite lookup_ge_None_2 by lia. reflexivity.
Qed.

Lemma fill_required_panics L (tp : tape) required positions pwd pos k :
  positions_ok L positions -> length pwd = L -> 0 <= pos <= Z.of_nat L ->
  Z.of_nat L < pos + Z.of_nat (length required) ->
  Forall (fun req => 0 < len req) required ->
  fill_required required positions pwd pos tp k = Panic "index out of range".
Proof.
  intros Hok. revert pwd pos k.
  induction required as [|req required IH]; intros pwd pos k Hpwd Hpos Hfit Hreq.
  - cbn [length] in Hfit. lia.
  - apply Forall_cons in Hreq as [Hlen Hreq].
    cbn [length] in Hfit. cbn [fill_required]. unfold bind at 1.
    destruct (rand_Int_ok (len req) tp k Hlen) as [-> Hn].
    set (n := tp k mod len req) in *.
    pose proof Hok as [HL _]. next.
    destruct (decide (pos = Z.of_nat L)) as [Heq|Hne].
    + rewrite index_out_of_range by lia. reflexivity.
    + destruct (index_in_range positions pos tp (S k) ltac:(lia)) as (p & Hp & ->).
      pose proof (positions_ok_lookup _ _ _ _ Hok Hp) as Hprange. next.
      destruct (index_bytes_in req n tp (S k) Hn) as (c & Hc & ->).
      next. rewrite store_ok by lia. cbv beta iota.
      apply IH; [by rewrite length_insert|lia|lia|exact Hreq].
Qed.

Lemma shuffle_start_ok L (tp : tape) k :
  exists positions k',
    shuffle (Nat.pred (length (imap (fun i (_ : Z) => Z.of_nat i) (replicate L 0))))
            (imap (fun i (_ : Z) => Z.of_nat i) (replicate L 0)) tp k
      = Done (positions, k') /\ positions_ok L positions.
Proof.
  destruct L as [|L].
  - exists [], k. split; [reflexivity|]. split; [reflexivity|constructor].
  - apply shuffle_ok; [|apply positions_ok_start].
    rewrite length_imap, length_replicate. cbn. lia.
Qed.

Lemma generate_body_panics (tp : tape) charset required length k :
  0 <= length < Z.of_nat (List.length required) ->
  Forall (fun req => 0 < len req) required ->
  (pwd <- make 0 length ;;
   positions <- make 0 length ;;
   let positions := imap (fun i _ => Z.of_nat i) positions in
   positions <- shuffle (Nat.pred (List.length positions)) positions ;;
   filled <- fill_required required positions pwd 0 ;;
   let '(pwd, pos) := filled in
   pwd <- fill_rest (Z.to_nat (length - pos)) charset positions pwd pos ;;
   ret (of_bytes pwd)) tp k = Panic "index out of range".
Proof.
  intros Hlen Hreq.
  set (L := Z.to_nat length).
  unfold bind at 1. rewrite make_ok by lia. next. rewrite make_ok by lia.
  cbv beta iota zeta. fold L.
  unfold bind at 1.
  destruct (shuffle_start_ok L tp k) as (positions & k1 & -> & Hok).
  next.
  rewrite (fill_required_panics L tp required positions (replicate L 0) 0 k1 Hok
             ltac:(apply length_replicate) ltac:(lia) ltac:(lia) Hreq).
  reflexivity.
Qed.

Lemma generateCandidate_panics (v : PasswordValidator) (tp : tape) (k : nat) :
  0 <= MinLength v -> MinLength v < required_count v ->
  MaxLength v < required_count v ->
  generateCandidate v tp k = Panic "index out of range".
Proof.
  intros Hmin Hshort Hmax.
  assert (Hrc : required_count v <= 4).
  { unfold required_count.
    destruct (RequireLower v), (RequireUpper v), (RequireNumbers v), (RequireSymbols v); lia. }
  unfold generateCandidate. unfold bind at 1.
  match goal with
  | |- match ?c with _ => _ end = _ => set (choice := c)
  end.
  assert (Hchoice : exists length k1,
             choice = Done (length, k1) /\ 0 <= length < required_count v).
  { subst choice. destruct (Z.ltb_spec (MinLength v) (MaxLength v)).
    - unfold bind at 1. rewrite (wrap64_id (MaxLength v - MinLength v)) by lia.
      rewrite (wrap64_id (MaxLength v - MinLength v + 1)) by lia.
      destruct (rand_Int_ok (MaxLength v - MinLength v + 1) tp k ltac:(lia)) as [-> Hn].
      cbv beta iota. eexists _, _. split; [reflexivity|].
      rewrite wrap64_id by lia. lia.
    - exists (MinLength v), k. split; [reflexivity|lia]. }
  destruct Hchoice as (length & k1 & -> & Hrange). cbv beta iota.
  unfold required_count in Hrange.
  destruct (RequireLower v), (RequireUpper v), (RequireNumbers v), (RequireSymbols v);
    cbv beta iota zeta; apply generate_body_panics;
    first [ cbn [List.length app]; lia | repeat constructor ].
Qed.

Section GeneratorPanicsAlways.
Context `{GoLib}.

(** X11 [Generate]: when both configured lengths are below the number of
    required character classes (and the minimum is not negative),
    [Generate] panics with an index out of range at the first candidate,
    whatever the random source delivers. *)
Theorem Generate_panics_when_too_short (order : MapOrder) (v : PasswordValidator)
    (tp : tape) (k : nat) :
  0 <= MinLength v -> MinLength v < required_count v ->
  MaxLength v < required_count v ->
  Generate order v tp k = Panic "index out of range".
Proof.
  intros Hmin Hshort Hmax.
  unfold Generate, maxAttempts.
  change 1000%nat with (S 999).
  cbn [generate_loop]. unfold bind.
  rewrite generateCandidate_panics by assumption. reflexivity.
Qed.

End GeneratorPanicsAlways.

Lemma Generate_panics_when_too_short_witness :
  @Generate ascii_lib order_stored short_for_four_classes zero_tape 0%nat
  = Panic "index out of range".
Proof.
  apply (@Generate_panics_when_too_short ascii_lib order_stored
           short_for_four_classes zero_tape 0%nat);
    vm_compute; first [reflexivity | discriminate].
Defined.

(** ** The character classes of a password *)

Section CharClasses.
Context `{GoLib}.

Lemma class_fold (rs : list rune) (l u n s : bool) :
  foldl class_step (l, u, n, s) rs =
  (l || existsb counts_lower rs, u || existsb counts_upper rs,
   n || existsb counts_number rs, s || existsb counts_symbol rs).
Proof.
  revert l u n s. induction rs as [|r rs IH]; intros l u n s.
  - cbn. by rewrite !orb_false_r.
  - cbn [foldl existsb]. unfold class_step at 2.
    unfold counts_lower at 1, counts_upper at 1, counts_number at 1, counts_symbol at 1.
    destruct (unicode_IsLower r); [rewrite IH; cbn; by rewrite !orb_true_r|].
    destruct (unicode_IsUpper r); [rewrite IH; cbn; by rewrite !orb_true_r|].
    destruct (unicode_IsDigit r); [rewrite IH; cbn; by rewrite !orb_true_r|].
    destruct (unicode_IsPunct r || unicode_IsSymbol r);
      rewrite IH; cbn; by rewrite ?orb_true_r.
Qed.

(** X12 [charClasses]: each of the four results tells whether some code
    point of the password falls into the case of that class, the cases
    being tried in the order lower, upper, digit, punctuation or symbol. *)
Theorem charClasses_spec (password : string) :
  charClasses password =
  (existsb counts_lower (runes password), existsb counts_upper (runes password),
   existsb counts_number (runes password), existsb counts_symbol (runes password)).
Proof. unfold charClasses. by rewrite class_fold. Qed.

End CharClasses.

(** ** Candidates and the rule checks *)




Section CandidateRules.
Context `{GoLib}.




End CandidateRules.


(** ** The common-password detector *)

Lemma leetNormalize_variant order s : In (leetNormalize s) (leetVariants order s).
Proof.
  apply leetVariants_In. unfold variants_map.
  destruct (0 <? _)%nat.
  - apply foldl_insert_lookup. left. by apply lookup_singleton_is_Some.
  - by apply lookup_singleton_is_Some.
Qed.

Lemma leetVariants_expands order s v :
  In v (leetVariants order s) <->
  exists vr, v = of_runes vr /\ expands_first_two (runes s) vr.
Proof. rewrite leetVariants_In. apply variants_map_lookup. Qed.

(** X14 [penaltyCommonPassword]: without a dictionary there is no
    penalty; a password in the dictionary gets [common_password] with
    factor 0.1; otherwise, when some leet variant is in the dictionary,
    as always when the leet normal form is, it gets
    [common_password_leet] with factor 0.15 and a matching variant in the
    description, whatever the iteration order of the variants; and there
    is no penalty exactly when neither the password nor any variant is in
    the dictionary. *)
Theorem common_password_penalty (order : MapOrder) (lower : string)
    (d : dictionary) :
  penaltyCommonPassword order lower None = None /\
  (contains d lower = true ->
   penaltyCommonPassword order lower (Some d) =
   Some {| Rule := "common_password"; Factor := 0.1;
           Desc := "password is in the common passwords list" |}) /\
  (contains d lower = false ->
   (exists vr, expands_first_two (runes lower) vr /\ contains d (of_runes vr) = true) ->
   exists vr, expands_first_two (runes lower) vr /\ contains d (of_runes vr) = true /\
     penaltyCommonPassword order lower (Some d) =
     Some {| Rule := "common_password_leet"; Factor := 0.15;
             Desc := "password matches common password via leet-speak ("
                     +:+ of_runes vr +:+ ")" |}) /\
  (contains d lower = false -> contains d (leetNormalize lower) = true ->
   exists p, penaltyCommonPassword order lower (Some d) = Some p /\
             Rule p = "common_password_leet"%string /\ Factor p = 0.15%float) /\
  (penaltyCommonPassword order lower (Some d) = None <->
   contains d lower = false /\
   forall vr, expands_first_two (runes lower) vr -> contains d (of_runes vr) = false).
Proof.
  assert (Hfound : forall v, In v (leetVariants order lower) -> contains d v = true ->
            exists w, List.find (contains d) (leetVariants order lower) = Some w /\
                      In w (leetVariants order lower) /\ contains d w = true).
  { intros v Hin Hv.
    destruct (List.find (contains d) (leetVariants order lower)) as [w|] eqn:E.
    - exists w. split; [reflexivity|]. by apply find_some in E.
    - pose proof (find_none _ _ E v Hin) as Hn. congruence. }
  split; [reflexivity|]. split; [|split; [|split]].
  - intros Hc. unfold penaltyCommonPassword. by rewrite Hc.
  - intros Hc (vr & Hvr & Hd).
    destruct (Hfound (of_runes vr)) as (w & Hfind & Hin & Hw); [|exact Hd|].
    { apply leetVariants_expands. eauto. }
    apply leetVariants_expands in Hin as (wr & -> & Hwr).
    exists wr. split; [exact Hwr|]. split; [exact Hw|].
    unfold penaltyCommonPassword. by rewrite Hc, Hfind.
  - intros Hc Hn.
    destruct (Hfound _ (leetNormalize_variant order lower) Hn) as (w & Hfind & _ & _).
    unfold penaltyCommonPassword. rewrite Hc, Hfind. eexists. by repeat split.
  - unfold penaltyCommonPassword.
    destruct (contains d lower) eqn:Hc; [split; [discriminate|intros [? _]; discriminate]|].
    destruct (List.find (contains d) (leetVariants order lower)) as [w|] eqn:E.
    + split; [discriminate|]. intros [_ Hnone]. exfalso.
      apply find_some in E as [Hin Hw].
      apply leetVariants_expands in Hin as (wr & -> & Hwr).
      rewrite (Hnone wr Hwr) in Hw. discriminate.
    + split; [|reflexivity]. intros _. split; [reflexivity|]. intros vr Hvr.
      assert (Hin : In (of_runes vr) (leetVariants order lower))
        by (apply leetVariants_expands; eauto).
      pose proof (find_none _ _ E _ Hin) as Hn.
      destruct (contains d (of_runes vr)); [discriminate|reflexivity].
Qed.

(** ** The dictionary-substring detector *)

Lemma has_prefix_spec p s : has_prefix p s = true <-> exists post, s = p ++ post.
Proof.
  revert s. induction p as [|x p IH]; intros s.
  - cbn. split; [eauto|reflexivity].
  - destruct s as [|y s]; cbn [has_prefix].
    + split; [discriminate|]. intros [post Hp]. discriminate.
    + rewrite andb_true_iff, Z.eqb_eq, IH. split.
      * intros [-> [post ->]]. by exists post.
      * intros [post Hp]. cbn in Hp. injection Hp as -> ->. eauto.
Qed.

Lemma contains_bytes_spec s sub : contains_bytes s sub = true <-> occurs_in sub s.
Proof.
  unfold occurs_in. induction s as [|y s IH].
  - cbn [contains_bytes]. rewrite orb_false_r, has_prefix_spec. split.
    + intros [post Hp]. by exists [], post.
    + intros (pre & post & Hp). destruct pre; [|discriminate]. eauto.
  - cbn [contains_bytes]. rewrite orb_true_iff, has_prefix_spec, IH. split.
    + intros [[post Hp]|(pre & post & Hp)].
      * by exists [], post.
      * exists (y :: pre), post. cbn. by rewrite Hp.
    + intros (pre & post & Hp). destruct pre as [|z pre].
      * left. eauto.
      * right. cbn in Hp. injection Hp as _ ->. eauto.
Qed.

Lemma candidate_test lower word :
  negb (len word <? 4)
  && (strings_Contains lower word || strings_Contains (leetNormalize lower) word) = true
  <-> is_candidate lower word.
Proof.
  unfold is_candidate, strings_Contains.
  rewrite andb_true_iff, orb_true_iff, negb_true_iff, Z.ltb_ge, !contains_bytes_spec.
  reflexivity.
Qed.

Lemma longest_match_fold lower (ws : list string) :
  let r := foldl (fun longestMatch word =>
                    if len word <? 4 then longestMatch
                    else if strings_Contains lower word
                            || strings_Contains (leetNormalize lower) word then
                      if len longestMatch <? len word then word else longestMatch
                    else longestMatch)
                 EmptyString ws in
  (r = EmptyString /\ forall w, In w ws -> ~ is_candidate lower w) \/
  first_longest lower ws r.
Proof.
  induction ws as [|x ws IH] using rev_ind; [left; by split|].
  rewrite foldl_app. cbn [foldl]. cbv zeta in IH |- *.
  set (r := foldl _ EmptyString ws) in *.
  pose proof (candidate_test lower x) as Hx.
  destruct (len x <? 4) eqn:E4; cbn [negb andb] in Hx.
  { assert (Hnx : ~ is_candidate lower x) by (intros Hc; apply Hx in Hc; discriminate).
    destruct IH as [[Hr Hnone]|(Hc & before & after & Hws & Hb & Ha)].
    - left. split; [exact Hr|]. intros w Hw. apply in_app_iff in Hw as [Hw|[<-|[]]]; auto.
    - right. split; [exact Hc|]. exists before, (after ++ [x]).
      split; [by rewrite Hws, <- app_assoc|]. split; [exact Hb|].
      intros w Hw Hcw. apply in_app_iff in Hw as [Hw|[<-|[]]]; [auto|contradiction]. }
  destruct (strings_Contains lower x || strings_Contains (leetNormalize lower) x) eqn:Ec.
  - assert (Hcx : is_candidate lower x) by (by apply Hx).
    destruct IH as [[Hr Hnone]|(Hc & before & after & Hws & Hb & Ha)].
    + right. rewrite Hr. change (len EmptyString) with 0.
      destruct (Z.ltb_spec 0 (len x)) as [_|Hle]; [|destruct Hcx; lia].
      split; [exact Hcx|]. exists ws, []. split; [reflexivity|].
      split; [|intros w []]. intros w Hw Hcw. by apply Hnone in Hw.
    + right. destruct (Z.ltb_spec (len r) (len x)) as [Hlt|Hge].
      * split; [exact Hcx|]. exists ws, []. split; [reflexivity|].
        split; [|intros w []]. intros w Hw Hcw. rewrite Hws in Hw.
        apply in_app_iff in Hw as [Hw|[<-|Hw]]; [specialize (Hb w Hw Hcw)| |specialize (Ha w Hw Hcw)]; lia.
      * split; [exact Hc|]. exists before, (after ++ [x]).
        split; [by rewrite Hws, <- app_assoc|]. split; [exact Hb|].
        intros w Hw Hcw. apply in_app_iff in Hw as [Hw|[<-|[]]]; [auto|lia].
  - assert (Hnx : ~ is_candidate lower x) by (intros Hc; apply Hx in Hc; discriminate).
    destruct IH as [[Hr Hnone]|(Hc & before & after & Hws & Hb & Ha)].
    + left. split; [exact Hr|]. intros w Hw. apply in_app_iff in Hw as [Hw|[<-|[]]]; auto.
    + right. split; [exact Hc|]. exists before, (after ++ [x]).
      split; [by rewrite Hws, <- app_assoc|]. split; [exact Hb|].
      intros w Hw Hcw. apply in_app_iff in Hw as [Hw|[<-|[]]]; [auto|contradiction].
Qed.

Lemma first_longest_unique lower ws m m' :
  first_longest lower ws m -> first_longest lower ws m' -> m = m'.
Proof.
  intros (Hc & b & a & Hws & Hb & Ha) (Hc' & b' & a' & Hws' & Hb' & Ha').
  assert (Hin : In m' (b ++ m :: a)) by (rewrite <- Hws, Hws', in_app_iff; right; by left).
  assert (Hin' : In m (b' ++ m' :: a')) by (rewrite <- Hws', Hws, in_app_iff; right; by left).
  assert (Hlen : len m = len m').
  { apply in_app_iff in Hin as [Hin|[E|Hin]]; [|by rewrite E|];
      (apply in_app_iff in Hin' as [Hin'|[E'|Hin']]; [|by rewrite E'|]).
    - specialize (Hb _ Hin Hc'). specialize (Hb' _ Hin' Hc). lia.
    - specialize (Hb _ Hin Hc'). specialize (Ha' _ Hin' Hc). lia.
    - specialize (Ha _ Hin Hc'). specialize (Hb' _ Hin' Hc). lia.
    - specialize (Ha _ Hin Hc'). specialize (Ha' _ Hin' Hc). lia. }
  rewrite Hws' in Hws. clear Hws' Hin Hin' Ha Ha'.
  revert b Hws Hb Hb'. induction b' as [|y b' IH]; intros b Hws Hb Hb'.
  - destruct b as [|z b]; cbn in Hws; [congruence|].
    injection Hws as E _. subst z. specialize (Hb m' (or_introl eq_refl) Hc'). lia.
  - destruct b as [|z b]; cbn in Hws.
    + injection Hws as E _. subst y. specialize (Hb' m (or_introl eq_refl) Hc). lia.
    + injection Hws as E Hws. subst z. apply (IH b Hws).
      * intros w Hw. apply Hb. by right.
      * intros w Hw. apply Hb'. by right.
Qed.

(** X15 [penaltyDictionarySubstring]: without a dictionary, or when no
    word of at least four bytes occurs in the password or in its leet
    normal form, there is no penalty.  Otherwise the match is the first
    of the longest such words in the order of the dictionary, and the
    penalty follows the share of the password it covers: 0.2 from 0.8
    on, else 0.5 from 0.5 on, else 0.7 from 0.3 on, else none. *)
Theorem dictionary_substring_penalty (lower : string) (d : dictionary) :
  penaltyDictionarySubstring lower None = None /\
  ((forall w, In w (words d) -> ~ is_candidate lower w) ->
   penaltyDictionarySubstring lower (Some d) = None) /\
  (forall m, first_longest lower (words d) m ->
   penaltyDictionarySubstring lower (Some d) =
   if (0.8 <=? match_ratio m lower)%float then
     Some {| Rule := "dictionary_substring"; Factor := 0.2;
             Desc := "password is mostly the dictionary word '" +:+ m +:+ "'" |}
   else if (0.5 <=? match_ratio m lower)%float then
     Some {| Rule := "dictionary_substring"; Factor := 0.5;
             Desc := "password contains dictionary word '" +:+ m +:+ "'" |}
   else if (0.3 <=? match_ratio m lower)%float then
     Some {| Rule := "dictionary_substring"; Factor := 0.7;
             Desc := "password contains dictionary word '" +:+ m +:+ "'" |}
   else None) /\
  ((exists w, In w (words d) /\ is_candidate lower w) ->
   exists m, first_longest lower (words d) m).
Proof.
  pose proof (longest_match_fold lower (words d)) as Hfold. cbv zeta in Hfold.
  unfold penaltyDictionarySubstring. cbv zeta.
  set (r := foldl _ EmptyString (words d)) in *. clearbody r.
  split; [reflexivity|]. split; [|split].
  - intros Hnone.
    destruct Hfold as [[-> _]|(Hc & b & a & Hws & _)]; [reflexivity|].
    exfalso. apply (Hnone r); [rewrite Hws, in_app_iff; right; by left|exact Hc].
  - intros m Hm.
    destruct Hfold as [[_ Hnone]|Hr].
    + exfalso. destruct Hm as (Hc & b & a & Hws & _).
      apply (Hnone m); [rewrite Hws, in_app_iff; right; by left|exact Hc].
    + rewrite <- (first_longest_unique _ _ _ _ Hm Hr).
      destruct Hm as ([Hlen _] & _).
      assert (Hne : String.eqb m EmptyString = false).
      { apply String.eqb_neq. intros ->. change (len EmptyString) with 0 in Hlen. lia. }
      rewrite Hne. reflexivity.
  - intros (w & Hw & Hc).
    destruct Hfold as [[_ Hnone]|Hr]; [by apply Hnone in Hw|eauto].
Qed.

(** ** The penalties that are reported *)

Lemma penaltyCommonPassword_rule order lower d p :
  penaltyCommonPassword order lower d = Some p ->
  d <> None /\
  (Rule p = "common_password"%string \/ Rule p = "common_password_leet"%string).
Proof.
  unfold penaltyCommonPassword. destruct d as [d|]; [|discriminate].
  destruct (contains d lower); [intros [= <-]; split; [done|by left]|].
  destruct (List.find _ _); [intros [= <-]; split; [done|by right]|discriminate].
Qed.

Lemma penaltyRepeatedChars_rule lower p :
  penaltyRepeatedChars lower = Some p -> Rule p = "repeated_chars"%string.
Proof.
  unfold penaltyRepeatedChars.
  destruct (len lower <? 3); [discriminate|].
  destruct (4 <=? _); [|destruct (3 <=? _)];
    (destruct (_ <? 0.4)%float; [|destruct (_ <? 0.6)%float]);
    cbv zeta;
    match goal with
    | |- context [(?f <? 1.0)%float] => destruct (f <? 1.0)%float
    end;
    first [discriminate | intros [= <-]; reflexivity].
Qed.

Lemma penaltySequentialChars_rule lower p :
  penaltySequentialChars lower = Some p -> Rule p = "sequential_chars"%string.
Proof.
  unfold penaltySequentialChars.
  destruct (len lower <? 3); [discriminate|].
  destruct (5 <=? _); [by intros [= <-]|].
  destruct (4 <=? _); [by intros [= <-]|].
  destruct (3 <=? _); [by intros [= <-]|discriminate].
Qed.

Lemma penaltyKeyboardPatterns_rule lower p :
  penaltyKeyboardPatterns lower = Some p -> Rule p = "keyboard_pattern"%string.
Proof.
  unfold penaltyKeyboardPatterns.
  destruct (6 <=? _); [by intros [= <-]|].
  destruct (5 <=? _); [by intros [= <-]|].
  destruct (4 <=? _); [by intros [= <-]|discriminate].
Qed.

Lemma penaltyDictionarySubstring_rule lower d p :
  penaltyDictionarySubstring lower d = Some p ->
  d <> None /\ Rule p = "dictionary_substring"%string.
Proof.
  unfold penaltyDictionarySubstring. destruct d as [d|]; [|discriminate].
  destruct (String.eqb _ _); [discriminate|].
  destruct (0.8 <=? _)%float; [by intros [= <-]|].
  destruct (0.5 <=? _)%float; [by intros [= <-]|].
  destruct (0.3 <=? _)%float; [by intros [= <-]|discriminate].
Qed.

Ltac pick_sublist :=
  repeat first [apply sublist_nil | apply sublist_skip | apply sublist_cons].

Section PenaltiesReported.
Context `{GoLib}.

Lemma detectPenalties_rules order password d :
  (exists c, (c = "common_password"%string \/ c = "common_password_leet"%string) /\
     sublist (map Rule (detectPenalties order password d))
             [c; "repeated_chars"; "sequential_chars"; "keyboard_pattern";
              "dictionary_substring"]%string) /\
  (d = None ->
   sublist (map Rule (detectPenalties order password d))
           ["repeated_chars"; "sequential_chars"; "keyboard_pattern"]%string).
Proof.
  unfold detectPenalties. cbv zeta.
  set (lower := strings_ToLower password).
  destruct (penaltyCommonPassword order lower d) as [p1|] eqn:E1;
    [apply penaltyCommonPassword_rule in E1 as [Hd1 E1]|];
  (destruct (penaltyRepeatedChars lower) as [p2|] eqn:E2;
    [apply penaltyRepeatedChars_rule in E2|]);
  (destruct (penaltySequentialChars lower) as [p3|] eqn:E3;
    [apply penaltySequentialChars_rule in E3|]);
  (destruct (penaltyKeyboardPatterns lower) as [p4|] eqn:E4;
    [apply penaltyKeyboardPatterns_rule in E4|]);
  (destruct (penaltyDictionarySubstring lower d) as [p5|] eqn:E5;
    [apply penaltyDictionarySubstring_rule in E5 as [Hd5 E5]|]);
  cbn [add_penalty app map];
  repeat match goal with E : Rule _ = _ |- _ => rewrite E; clear E end;
  (split; [|intros Hd; try contradiction; pick_sublist]);
  first [ destruct E1 as [E1|E1]; rewrite E1; eexists; (split; [|pick_sublist]); auto
        | exists "common_password"%string; (split; [by left|pick_sublist]) ].
Qed.

(** X16 [detectPenalties] under [validate]: the penalties reported are
    listed in the fixed order common password (plain or leet), repeated
    characters, sequential characters, keyboard pattern, dictionary
    substring, each at most once, so there are at most five; a validator
    without a dictionary reports only the three in the middle. *)
Theorem penalties_in_fixed_order (order : MapOrder) (v : PasswordValidator)
    (password : string) :
  let rules := map Rule (Penalties (snd (validate order v password))) in
  (exists c, (c = "common_password"%string \/ c = "common_password_leet"%string) /\
     sublist rules [c; "repeated_chars"; "sequential_chars"; "keyboard_pattern";
                    "dictionary_substring"]%string) /\
  NoDup rules /\ (length rules <= 5)%nat /\
  (dict v = None ->
   sublist rules ["repeated_chars"; "sequential_chars"; "keyboard_pattern"]%string).
Proof.
  cbv zeta. rewrite validate_penalties.
  destruct (detectPenalties_rules order password (dict v)) as [(c & Hc & Hsub) Hnone].
  split; [eauto|]. split; [|split; [|exact Hnone]].
  - eapply sublist_NoDup; [|exact Hsub].
    destruct Hc as [-> | ->]; apply NoDup_ListNoDup;
      repeat (constructor; [cbn; intuition discriminate|]); constructor.
  - apply sublist_length in Hsub. exact Hsub.
Qed.

End PenaltiesReported.

(** ** The pool and the entropy of a longer password *)

Lemma bytes_app a b : bytes (a +:+ b) = bytes a ++ bytes b.
Proof.
  unfold bytes. induction a as [|c a IH]; [reflexivity|].
  cbn. by rewrite <- IH.
Qed.

Lemma len_app a b : len (a +:+ b) = len a + len b.
Proof. rewrite !len_bytes, bytes_app, length_app. lia. Qed.

Lemma decode_ascii_app a b :
  Forall (fun x => x < 0x80) a -> decode (a ++ b) = a ++ decode b.
Proof.
  induction 1 as [|x a Hx _ IH]; [reflexivity|].
  cbn [app decode]. destruct (Z.ltb_spec x 0x80); [by rewrite IH|lia].
Qed.

Section Pool.
Context `{GoLib}.

Lemma pool_fold (rs : list rune) (l u n s : bool) :
  foldl pool_step (l, u, n, s) rs =
  (l || existsb counts_lower rs, u || existsb counts_upper rs,
   n || existsb counts_number rs, s || existsb counts_other rs).
Proof.
  revert l u n s. induction rs as [|r rs IH]; intros l u n s.
  - cbn. by rewrite !orb_false_r.
  - cbn [foldl existsb]. unfold pool_step at 2.
    unfold counts_lower at 1, counts_upper at 1, counts_number at 1, counts_other at 1.
    destruct (unicode_IsLower r); [rewrite IH; cbn; by rewrite !orb_true_r|].
    destruct (unicode_IsUpper r); [rewrite IH; cbn; by rewrite !orb_true_r|].
    destruct (unicode_IsDigit r); rewrite IH; cbn; by rewrite ?orb_true_r.
Qed.

Lemma effectivePoolSize_flags password :
  effectivePoolSize password =
  pool_of_flags (existsb counts_lower (runes password),
                 existsb counts_upper (runes password),
                 existsb counts_number (runes password),
                 existsb counts_other (runes password)).
Proof. unfold effectivePoolSize. by rewrite pool_fold. Qed.

Lemma pool_of_flags_values l u n s :
  pool_of_flags (l, u, n, s) =
  (if l then 26 else 0) + (if u then 26 else 0)
  + (if n then 10 else 0) + (if s then 33 else 0).
Proof. destruct l, u, n, s; reflexivity. Qed.

Lemma effectivePoolSize_app a b :
  is_ascii a -> effectivePoolSize a <= effectivePoolSize (a +:+ b).
Proof.
  intros Ha. rewrite !effectivePoolSize_flags.
  assert (Hr : runes (a +:+ b) = runes a ++ runes b).
  { unfold runes. rewrite bytes_app, decode_ascii_app by exact Ha.
    by rewrite (decode_ascii _ Ha). }
  rewrite Hr, !existsb_app, !pool_of_flags_values.
  destruct (existsb counts_lower (runes a)), (existsb counts_upper (runes a)),
    (existsb counts_number (runes a)), (existsb counts_other (runes a));
    cbn [orb];
    repeat match goal with |- context [if ?c then _ else _] => destruct c end; lia.
Qed.

End Pool.

Local Open Scope R_scope.

Lemma entropyToScore_monotone e1 e2 :
  e1 <= e2 -> (entropyToScore e1 <= entropyToScore e2)%Z.
Proof.
  intros Hle.
  destruct (Rle_dec e1 0) as [H1|H1].
  - unfold entropyToScore at 1. destruct (Rle_dec e1 0); [|lra].
    apply entropyToScore_range.
  - rewrite !entropyToScore_positive by lra. cbv zeta.
    assert (Hm : (Int_part (curve e1 + / 2) <= Int_part (curve e2 + / 2))%Z).
    { apply Int_part_le. pose proof (curve_monotone e1 e2 Hle). lra. }
    set (s1 := Int_part (curve e1 + / 2)) in *.
    set (s2 := Int_part (curve e2 + / 2)) in *.
    destruct (Z.ltb_spec 100 s1), (Z.ltb_spec 100 s2);
      repeat match goal with
             | |- context [(?a <? ?b)%Z] => destruct (Z.ltb_spec a b)
             end; lia.
Qed.

Lemma log2_monotone x y : 1 <= x -> x <= y -> 0 <= math_Log2 x <= math_Log2 y.
Proof.
  intros Hx Hxy. unfold math_Log2. pose proof ln_2_pos as H2.
  assert (H0 : 0 <= ln x).
  { destruct Hx as [Hx| <-]; [|rewrite ln_1; lra].
    rewrite <- ln_1. left. apply ln_increasing; lra. }
  assert (Hm : ln x <= ln y).
  { destruct Hxy as [Hxy| <-]; [|lra]. left. apply ln_increasing; lra. }
  split.
  - apply Rmult_le_pos; [exact H0|]. left. by apply Rinv_0_lt_compat.
  - apply Rmult_le_compat_r; [left; by apply Rinv_0_lt_compat|exact Hm].
Qed.

Section Longer.
Context `{GoLib}.

Lemma calculateEntropy_nonneg password : 0 <= calculateEntropy password.
Proof.
  unfold calculateEntropy.
  destruct (Z.eqb_spec (len password) 0); [lra|].
  destruct (Z.leb_spec (effectivePoolSize password) 1); [lra|].
  apply Rmult_le_pos.
  - apply IZR_le. unfold len. lia.
  - apply (log2_monotone (IZR (effectivePoolSize password)) (IZR (effectivePoolSize password)));
      [apply IZR_le; lia|lra].
Qed.

Lemma calculateEntropy_app a b :
  is_ascii a -> calculateEntropy a <= calculateEntropy (a +:+ b).
Proof.
  intros Ha. pose proof (effectivePoolSize_app a b Ha) as Hpool.
  pose proof (calculateEntropy_nonneg (a +:+ b)) as Hnn.
  pose proof (len_app a b) as Hlen.
  assert (Hla : (0 <= len a)%Z) by (unfold len; lia).
  assert (Hlb : (0 <= len b)%Z) by (unfold len; lia).
  unfold calculateEntropy at 1.
  destruct (Z.eqb_spec (len a) 0); [exact Hnn|].
  destruct (Z.leb_spec (effectivePoolSize a) 1); [exact Hnn|].
  clear Hnn. unfold calculateEntropy.
  destruct (Z.eqb_spec (len (a +:+ b)) 0); [lia|].
  destruct (Z.leb_spec (effectivePoolSize (a +:+ b)) 1); [lia|].
  destruct (log2_monotone (IZR (effectivePoolSize a)) (IZR (effectivePoolSize (a +:+ b))))
    as [Hlog0 Hlogm]; [apply IZR_le; lia|apply IZR_le; lia|].
  apply Rmult_le_compat; [apply IZR_le; lia|exact Hlog0|apply IZR_le; lia|exact Hlogm].
Qed.

(** X17 [effectivePoolSize], [calculateEntropy], [entropyToScore]:
    appending any text to an ASCII password lowers neither the pool
    size, nor the entropy, nor the score before the penalties. *)
Theorem longer_password_scores_no_lower (a b : string) :
  is_ascii a ->
  (effectivePoolSize a <= effectivePoolSize (a +:+ b))%Z /\
  calculateEntropy a <= calculateEntropy (a +:+ b) /\
  (raw_score a <= raw_score (a +:+ b))%Z.
Proof.
  intros Ha. split; [by apply effectivePoolSize_app|].
  split; [by apply calculateEntropy_app|].
  apply entropyToScore_monotone. by apply calculateEntropy_app.
Qed.

End Longer.

Lemma longer_password_scores_no_lower_witness :
  (@effectivePoolSize ascii_lib "abc" <= @effectivePoolSize ascii_lib ("abc" +:+ "D1"))%Z /\
  @calculateEntropy ascii_lib "abc" <= @calculateEntropy ascii_lib ("abc" +:+ "D1") /\
  (@raw_score ascii_lib "abc" <= @raw_score ascii_lib ("abc" +:+ "D1"))%Z.
Proof.
  apply (@longer_password_scores_no_lower ascii_lib "abc" "D1").
  unfold is_ascii. repeat constructor.
Defined.

Local Close Scope R_scope.
